(** * react-query: client facade, focus/online bus and hydration

    A shallow embedding of [src/core/queryClient.ts] and
    [src/hydration/hydration.ts].

    - JavaScript numbers are IEEE-754 binary64 values ([spec_float] of the
      standard library), so that [Infinity], NaN and [-0] behave as they do
      in the program.
    - Option bags ([QueryOptions], [FetchQueryOptions], ...) are finite maps
      from property names to values: object spread is map union, a property
      assignment is an insertion, and a property may be present with the
      value [undefined].
    - The Query Cache is a finite map from query hash to [Query]; a reference
      to a Query object held by the cache is the hash under which the cache
      holds it, and a method that mutates the object rewrites that entry.
    - [query.ts], [queryCache.ts], [utils.ts], [notifyManager.ts] and
      [focusHandler.ts] are not part of the sources at hand; what the two
      embedded files call from them is modelled from the specification and
      marked as such. *)

From Stdlib Require Import ZArith SpecFloat.
From stdpp Require Import gmap strings list fin_maps.

Set Default Proof Using "Type".
Set Warnings "-register-all".
Open Scope string_scope.
Open Scope list_scope.

(** ** JavaScript numbers *)

Abbreviation Number := spec_float.

Definition prec : Z := 53.
Definition emax : Z := 1024.

Definition Infinity : Number := S754_infinity false.

(** The binary64 value of an integer literal. *)
Definition num (z : Z) : Number := binary_normalize prec emax z 0 false.

(** [a === b] on numbers. *)
Definition strict_eq (a b : Number) : bool := SFeqb a b.

(** [a < b], [a > b], [a >= b] on numbers: false as soon as one side is NaN. *)
Definition lt (a b : Number) : bool :=
  match SFcompare a b with Some Lt => true | _ => false end.
Definition gt (a b : Number) : bool :=
  match SFcompare a b with Some Gt => true | _ => false end.
Definition ge (a b : Number) : bool :=
  match SFcompare a b with Some Gt | Some Eq => true | _ => false end.

(** [a - b], rounded to nearest even. *)
Definition minus (a b : Number) : Number := SFsub prec emax a b.

(** A finite number that is not negative ([-0] included, as [-0 >= 0]). *)
Definition nonneg_finite (v : Number) : bool :=
  match v with
  | S754_zero _ => true
  | S754_finite false _ _ => true
  | _ => false
  end.

(** ** JavaScript values *)

Inductive JsVal :=
| VUndefined
| VNull
| VBool (b : bool)
| VNum (n : Number)
| VStr (s : string)
| VArr (items : list JsVal)
| VObj (fields : list (string * JsVal))
| VFun (id : nat).

Definition typeof (v : JsVal) : string :=
  match v with
  | VUndefined => "undefined"
  | VNull | VArr _ | VObj _ => "object"
  | VBool _ => "boolean"
  | VNum _ => "number"
  | VStr _ => "string"
  | VFun _ => "function"
  end.

(** Modelled from the spec: [noop] of utils.ts, which is absent; the facade
    uses it to discard a value or to swallow an error. *)
Definition noop (_ : JsVal) : JsVal := VUndefined.

(** An options object. *)
Abbreviation Options := (gmap string JsVal).

(** [o.p]: reading a property that is absent gives [undefined]. *)
Definition prop (p : string) (o : Options) : JsVal := default VUndefined (o !! p).

(** [{...a, ...b}]: own properties of [b] win, also when their value is
    [undefined]. *)
Definition spread (a b : Options) : Options := b ∪ a.

Definition QueryKey := JsVal.

(** The Key Hasher and partial key matching ([utils.ts], absent) are taken as
    an interface. *)
Class KeyHasher := {
  hashQueryKey : QueryKey → string;
  partialMatchKey : QueryKey → QueryKey → bool
}.

(** ** Query state, observers and queries ([query.ts]) *)

Inductive QueryStatus := idle | loading | success | error.

Global Instance QueryStatus_eq_dec : EqDecision QueryStatus.
Proof. solve_decision. Defined.

Record QueryState := mkQueryState {
  data : JsVal;
  dataUpdatedAt : Number;
  error_ : JsVal;
  errorUpdatedAt : Number;
  updatedAt : Number;
  fetchFailureCount : nat;
  isFetching : bool;
  isInvalidated : bool;
  status : QueryStatus
}.

Record QueryObserver := mkQueryObserver {
  observerOptions : Options
}.

Record Query := mkQuery {
  queryKey : QueryKey;
  queryHash : string;
  state : QueryState;
  cacheTime : Number;
  options : Options;
  observers : list QueryObserver
}.

Definition DEFAULT_CACHE_TIME : Number := num 300000.

(** Modelled from the spec: [query.setState(state)] of query.ts, which is
    absent; the transition table gives [setState(s)] the target state [s]. *)
Definition Query_setState (s : QueryState) (q : Query) : Query :=
  mkQuery (queryKey q) (queryHash q) s (cacheTime q) (options q) (observers q).

(** Modelled from the spec: [query.invalidate()] of query.ts, which is
    absent; the state machine keeps the status and sets [isInvalidated]. *)
Definition Query_invalidate (q : Query) : Query :=
  let s := state q in
  Query_setState
    (mkQueryState (data s) (dataUpdatedAt s) (error_ s) (errorUpdatedAt s)
       (updatedAt s) (fetchFailureCount s) (isFetching s) true (status s)) q.

(** The stale time that an options value stands for: 0 when it is absent. *)
Definition staleTimeOf (v : JsVal) : Number :=
  match v with VNum n => n | _ => num 0 end.

(** Modelled from the spec: [query.isStaleByTime(staleTime)] of query.ts,
    which is absent; a Query is stale iff it is invalidated or
    [now - dataUpdatedAt >= staleTime], and the stale time defaults to 0. *)
Definition Query_isStaleByTime (now : Number) (staleTime : JsVal) (q : Query) : bool :=
  isInvalidated (state q)
  || ge (minus now (dataUpdatedAt (state q))) (staleTimeOf staleTime).

(** Modelled from the spec: [query.isStale()] of query.ts, which is absent;
    staleness as above, under the stale time of the query's options. *)
Definition Query_isStale (now : Number) (q : Query) : bool :=
  Query_isStaleByTime now (prop "staleTime" (options q)) q.

(** [observer.options.enabled !== false]. *)
Definition enabled_not_false (o : QueryObserver) : bool :=
  match prop "enabled" (observerOptions o) with
  | VBool false => false
  | _ => true
  end.

(** Modelled from the spec: [query.isActive()] of query.ts, which is absent;
    a Query is active when it has an observer with [enabled !== false]. *)
Definition Query_isActive (q : Query) : bool := existsb enabled_not_false (observers q).

(** Modelled from the spec: [query.isFetching()] of query.ts, which is absent;
    whether a fetch is in flight. *)
Definition Query_isFetching (q : Query) : bool := isFetching (state q).

(** [query.options] replaced by the options given with a call, if any. *)
Definition with_options (o : option Options) (q : Query) : Query :=
  mkQuery (queryKey q) (queryHash q) (state q) (cacheTime q)
          (default (options q) o) (observers q).

(** Whether [state.data] is there. *)
Definition has_data (s : QueryState) : bool :=
  match data s with VUndefined => false | _ => true end.

(** Modelled from the spec: the transition "fetch begins" of the Query state
    machine (query.ts, which is absent): [isFetching], and [loading] when
    there is no data. *)
Definition begin_fetch (s : QueryState) : QueryState :=
  mkQueryState (data s) (dataUpdatedAt s) (error_ s) (errorUpdatedAt s)
    (updatedAt s) 0 true (isInvalidated s)
    (if has_data s then status s else loading).

(** Modelled from the spec: [query.fetch(options)] of query.ts, which is
    absent. Single-flight: while a fetch is in flight the call joins it and
    starts nothing, though options given with the call replace the query's;
    else the fetch begins, with status [loading] when there is no data. The
    boolean tells whether a fetch was started (the fetch function invoked). *)
Definition Query_fetch (o : option Options) (q : Query) : Query * bool :=
  if Query_isFetching q then (with_options o q, false)
  else (Query_setState (begin_fetch (state q)) (with_options o q), true).

(** ** The Query Cache ([queryCache.ts]) *)

Abbreviation QueryCache := (gmap string Query).

(** A reference to a Query of the cache. *)
Definition QueryRef := string.

(** Modelled from the spec: [cache.get(hash)] of queryCache.ts, which is
    absent; the cache is the keyed store hash → Query. *)
Definition QueryCache_get (hash : string) (cache : QueryCache) : option Query :=
  cache !! hash.

(** Modelled from the spec: [cache.getAll()] of queryCache.ts, which is
    absent; the queries that the store holds. *)
Definition QueryCache_getAll (cache : QueryCache) : list Query :=
  (map_to_list cache).*2.

(** Modelled from the spec: the initial state of a Query (query.ts, which is
    absent): [idle], or [success] when the options carry [initialData]. *)
Definition initialState (o : Options) : QueryState :=
  let d := prop "initialData" o in
  mkQueryState d (num 0) VUndefined (num 0) (num 0) 0 false false
    (match d with VUndefined => idle | _ => success end).

(** Modelled from the spec: the cache time of a Query (query.ts, which is
    absent): the [cacheTime] of its options, 300000 ms by default. *)
Definition cacheTimeOf (o : Options) : Number :=
  match prop "cacheTime" o with VNum n => n | _ => DEFAULT_CACHE_TIME end.

(** Modelled from the spec: the hash that the cache files a Query under
    (queryCache.ts, which is absent): [options.queryHash], computed from the
    key by the Key Hasher when it is not given. *)
Definition hashOf `{KeyHasher} (o : Options) : string :=
  match prop "queryHash" o with
  | VStr h => h
  | _ => hashQueryKey (prop "queryKey" o)
  end.

(** Modelled from the spec: a new Query (query.ts, which is absent) owns its
    key, its hash, a state, its options and an empty observer set. *)
Definition newQuery `{KeyHasher} (o : Options) (s : QueryState) : Query :=
  mkQuery (prop "queryKey" o) (hashOf o) s (cacheTimeOf o) o [].

(** Modelled from the spec: [cache.restore(client, options, state)] of
    queryCache.ts, which is absent; a new Query is created from the options
    (its hash, its cache time) with the given state and inserted. *)
Definition QueryCache_restore `{KeyHasher} (o : Options) (s : QueryState)
    (cache : QueryCache) : QueryCache :=
  <[hashOf o := newQuery o s]> cache.

(** Modelled from the spec: [cache.build(client, options)] of queryCache.ts,
    which is absent; if a Query exists for the hash of the options it is
    returned with its options updated; else one is created and inserted. *)
Definition QueryCache_build `{KeyHasher} (o : Options) (cache : QueryCache)
    : QueryRef * QueryCache :=
  match cache !! hashOf o with
  | Some q => (hashOf o, <[hashOf o := with_options (Some o) q]> cache)
  | None => (hashOf o, <[hashOf o := newQuery o (initialState o)]> cache)
  end.

(** ** The client ([queryClient.ts]) *)

Record DefaultOptions := mkDefaultOptions {
  defaults_queries : option Options;
  defaults_mutations : option Options
}.

Record QueryClient := mkQueryClient {
  queryCache : QueryCache;
  defaultOptions : DefaultOptions
}.

Definition getQueryCache (client : QueryClient) : QueryCache := queryCache client.

Definition with_cache (cache : QueryCache) (client : QueryClient) : QueryClient :=
  mkQueryClient cache (defaultOptions client).

(** [restoreQuery(options, state)] hands over to the cache. *)
Definition restoreQuery `{KeyHasher} (o : Options) (s : QueryState)
    (client : QueryClient) : QueryClient :=
  with_cache (QueryCache_restore o s (queryCache client)) client.

(** ** hydration.ts *)

Record DehydratedQueryConfig := mkConfig {
  config_cacheTime : Number
}.

Record DehydratedQuery := mkDehydratedQuery {
  dq_queryKey : QueryKey;
  dq_queryHash : string;
  dq_state : QueryState;
  dq_config : DehydratedQueryConfig
}.

Record DehydratedState := mkDehydratedState {
  queries : list DehydratedQuery
}.

Record DehydrateOptions := mkDehydrateOptions {
  shouldDehydrate : option (Query → bool)
}.

Record HydrateOptions := mkHydrateOptions {
  hydrate_defaultOptions : option Options
}.

Definition serializePositiveNumber (value : Number) : Number :=
  if strict_eq value Infinity then num (-1) else value.

Definition deserializePositiveNumber (value : Number) : Number :=
  if strict_eq value (num (-1)) then Infinity else value.

Definition dehydrateQuery (query : Query) : DehydratedQuery :=
  {| dq_config := {| config_cacheTime := serializePositiveNumber (cacheTime query) |};
     dq_state := state query;
     dq_queryKey := queryKey query;
     dq_queryHash := queryHash query |}.

Definition defaultShouldDehydrate (query : Query) : bool :=
  bool_decide (status (state query) = success).

Definition dehydrate (client : QueryClient) (opts : option DehydrateOptions)
    : DehydratedState :=
  let opts := default {| shouldDehydrate := None |} opts in
  let shouldDehydrate := default defaultShouldDehydrate (shouldDehydrate opts) in
  let queries :=
    foldl (λ queries query,
             if shouldDehydrate query then queries ++ [dehydrateQuery query]
             else queries)
          [] (QueryCache_getAll (getQueryCache client)) in
  {| queries := queries |}.

(** The argument of [hydrate] has type [unknown]: any primitive, [null], a
    function, or an object, whose [queries] property is an array of dehydrated
    queries when it is there. *)
Inductive Unknown :=
| UUndefined
| UNull
| UBoolean (b : bool)
| UNumber (n : Number)
| UString (s : string)
| UFunction (id : nat)
| UObject (queries : option (list DehydratedQuery)).

Definition typeof_unknown (u : Unknown) : string :=
  match u with
  | UUndefined => "undefined"
  | UNull | UObject _ => "object"
  | UBoolean _ => "boolean"
  | UNumber _ => "number"
  | UString _ => "string"
  | UFunction _ => "function"
  end.

Definition is_null (u : Unknown) : bool :=
  match u with UNull => true | _ => false end.

Definition queries_of (u : Unknown) : option (list DehydratedQuery) :=
  match u with UObject qs => qs | _ => None end.

(** What [JSON.parse(JSON.stringify(dehydrated))] hands to [hydrate] when the
    payload holds nothing the serializer alters. *)
Definition payload (s : DehydratedState) : Unknown := UObject (Some (queries s)).

(** The body of the [forEach] of [hydrate]. *)
Definition hydrateQuery `{KeyHasher} (defaultOptions : Options)
    (client : QueryClient) (dehydratedQuery : DehydratedQuery) : QueryClient :=
  let cache := getQueryCache client in
  match QueryCache_get (dq_queryHash dehydratedQuery) cache with
  | Some query =>
      if lt (updatedAt (state query)) (updatedAt (dq_state dehydratedQuery))
      then with_cache
             (alter (Query_setState (dq_state dehydratedQuery))
                    (dq_queryHash dehydratedQuery) cache) client
      else client
  | None =>
      restoreQuery
        (<["cacheTime" :=
             VNum (deserializePositiveNumber
                     (config_cacheTime (dq_config dehydratedQuery)))]>
           (<["queryHash" := VStr (dq_queryHash dehydratedQuery)]>
              (<["queryKey" := dq_queryKey dehydratedQuery]> defaultOptions)))
        (dq_state dehydratedQuery) client
  end.

Definition hydrate `{KeyHasher} (client : QueryClient) (dehydratedState : Unknown)
    (opts : option HydrateOptions) : QueryClient :=
  if bool_decide (typeof_unknown dehydratedState ≠ "object") || is_null dehydratedState
  then client
  else
    let defaultOptions := default ∅ (opts ≫= hydrate_defaultOptions) in
    let queries := default [] (queries_of dehydratedState) in
    foldl (hydrateQuery defaultOptions) client queries.

(** ** Promises

    A promise is represented by how it was built; [settle] gives its outcome
    once the outcome of every query's fetch is known. *)

Inductive Promise :=
| Promise_resolve (v : JsVal)
| Query_promise (ref : QueryRef)
| Promise_all (ps : list Promise)
| Promise_then (p : Promise) (f : JsVal → JsVal)
| Promise_catch (p : Promise) (f : JsVal → JsVal).

Inductive Settled :=
| Fulfilled (v : JsVal)
| Rejected (e : JsVal)
| Pending.

(** [Promise.all]: rejected as soon as one is (with the first rejection in
    array order here), pending while one is, else the array of values. *)
Fixpoint settle_all (rs : list Settled) (acc : list JsVal) : Settled :=
  match rs with
  | [] => Fulfilled (VArr acc)
  | Fulfilled v :: rs => settle_all rs (acc ++ [v])
  | Rejected e :: _ => Rejected e
  | Pending :: rs =>
      match settle_all rs acc with
      | Rejected e => Rejected e
      | _ => Pending
      end
  end.

Fixpoint settle (fetched : QueryRef → Settled) (p : Promise) : Settled :=
  match p with
  | Promise_resolve v => Fulfilled v
  | Query_promise ref => fetched ref
  | Promise_all ps => settle_all (map (settle fetched) ps) []
  | Promise_then p f =>
      match settle fetched p with
      | Fulfilled v => Fulfilled (f v)
      | r => r
      end
  | Promise_catch p f =>
      match settle fetched p with
      | Rejected e => Fulfilled (f e)
      | r => r
      end
  end.

(** ** What a client method does besides returning

    [Fetch ref o started]: [query.fetch(o)] was called on the Query [ref],
    and started a fetch or joined the one in flight. [Batch es]: a
    [notifyManager.batch] that ran [es] (a nested batch shares the outermost
    one). *)
Inductive Event :=
| Invalidate (ref : QueryRef)
| Fetch (ref : QueryRef) (o : option Options) (started : bool)
| Batch (inner : list Event).

(** The queries on which [invalidate()], and on which [fetch()], was called,
    in the order of the calls. *)
Fixpoint invalidated (e : Event) : list QueryRef :=
  match e with
  | Invalidate ref => [ref]
  | Fetch _ _ _ => []
  | Batch inner => flat_map invalidated inner
  end.

Fixpoint refetched (e : Event) : list QueryRef :=
  match e with
  | Invalidate _ => []
  | Fetch ref _ _ => [ref]
  | Batch inner => flat_map refetched inner
  end.

(** ** Filters ([utils.ts], [queryCache.ts]) *)

Record QueryFilters := mkQueryFilters {
  filter_queryKey : option QueryKey;
  exact : option bool;
  active : option bool;
  inactive : option bool;
  stale : option bool;
  fetching : option bool;
  predicate : option (Query → bool);
  refetchActive : option bool;
  refetchInactive : option bool
}.

Record RefetchOptions := mkRefetchOptions {
  throwOnError : option bool
}.

(** One optional boolean filter: absent, or the query has the property to
    that value. *)
Definition agrees (f : option bool) (b : bool) : bool :=
  match f with
  | None => true
  | Some want => eqb want b
  end.

Definition matchKey `{KeyHasher} (filters : QueryFilters) (q : Query) : bool :=
  match filter_queryKey filters with
  | None => true
  | Some key =>
      if default false (exact filters)
      then bool_decide (queryHash q = hashQueryKey key)
      else partialMatchKey (queryKey q) key
  end.

(** Modelled from the spec: [matchQuery(filters, query)] of utils.ts, which
    is absent; the filters are combined with AND: the key ([exact]: by hash,
    else partial match), [active] / [inactive] (has an observer with
    [enabled !== false], or has none), [stale], [fetching], [predicate]. *)
Definition matchQuery `{KeyHasher} (now : Number) (filters : QueryFilters)
    (q : Query) : bool :=
  matchKey filters q
  && agrees (active filters) (Query_isActive q)
  && agrees (inactive filters) (negb (Query_isActive q))
  && agrees (stale filters) (Query_isStale now q)
  && agrees (fetching filters) (Query_isFetching q)
  && default (λ _, true) (predicate filters) q.

(** Modelled from the spec: [cache.findAll(filters)] of queryCache.ts, which
    is absent; the queries of the cache that match the filters. *)
Definition QueryCache_findAll `{KeyHasher} (now : Number) (filters : QueryFilters)
    (cache : QueryCache) : list QueryRef :=
  (filter (λ kv, matchQuery now filters kv.2 = true) (map_to_list cache)).*1.

(** Modelled from the spec: [cache.find(queryKey)] of queryCache.ts, which
    is absent; the Query whose hash is the hash of the key. *)
Definition QueryCache_find `{KeyHasher} (key : QueryKey) (cache : QueryCache)
    : option (QueryRef * Query) :=
  (λ q, (hashQueryKey key, q)) <$> cache !! hashQueryKey key.



(** Whether the Query that [h] refers to is marked invalidated. *)
Definition invalidatedAt (cache : QueryCache) (h : QueryRef) : option bool :=
  (λ q, isInvalidated (state q)) <$> cache !! h.

(** ** queryClient.ts: the facade *)

Definition Outcome : Type := Promise * QueryClient * list Event.

Definition defaultQueryOptions (client : QueryClient) (o : Options) : Options :=
  spread (default ∅ (defaults_queries (defaultOptions client))) o.

Definition buildQuery `{KeyHasher} (o : Options) (client : QueryClient)
    : QueryRef * QueryClient :=
  let '(ref, cache) := QueryCache_build o (queryCache client) in
  (ref, with_cache cache client).

(** [query.fetch(o)] on the Query that [ref] refers to. References are
    obtained from the cache, so the Query is there. *)
Definition fetchAt (ref : QueryRef) (o : option Options) (client : QueryClient)
    : Outcome :=
  match queryCache client !! ref with
  | Some q =>
      let '(q', started) := Query_fetch o q in
      (Query_promise ref, with_cache (<[ref := q']> (queryCache client)) client,
       [Fetch ref o started])
  | None => (Query_promise ref, client, [])
  end.

(** [fetchQueryData], from the options that [parseQueryArgs] (utils.ts,
    absent) normalised the arguments to. *)
Definition retryDefaulted (parsedOptions : Options) : Options :=
  if bool_decide (typeof (prop "retry" parsedOptions) = "undefined")
  then <["retry" := VBool false]> parsedOptions
  else parsedOptions.

Definition fetchQueryData `{KeyHasher} (now : Number) (parsedOptions : Options)
    (client : QueryClient) : Outcome :=
  let parsedOptions := retryDefaulted parsedOptions in
  let defaultedOptions := defaultQueryOptions client parsedOptions in
  match QueryCache_find (prop "queryKey" defaultedOptions) (queryCache client) with
  | None =>
      let '(ref, client) := buildQuery defaultedOptions client in
      fetchAt ref (Some defaultedOptions) client
  | Some (ref, query) =>
      if negb (Query_isStaleByTime now (prop "staleTime" defaultedOptions) query)
      then (Promise_resolve (data (state query)), client, [])
      else fetchAt ref (Some defaultedOptions) client
  end.

Definition prefetchQuery `{KeyHasher} (now : Number) (parsedOptions : Options)
    (client : QueryClient) : Outcome :=
  let '(promise, client, events) := fetchQueryData now parsedOptions client in
  (Promise_catch (Promise_then promise noop) noop, client, events).

(** [refetchQueries], from the filters and options that [parseFilterArgs]
    (utils.ts, absent) normalised the arguments to. *)
Fixpoint fetchEach (refs : list QueryRef) (client : QueryClient)
    : list Promise * QueryClient * list Event :=
  match refs with
  | [] => ([], client, [])
  | ref :: refs =>
      let '(promise, client, event) := fetchAt ref None client in
      let '(promises, client, events) := fetchEach refs client in
      (promise :: promises, client, event ++ events)
  end.

Definition refetchQueries `{KeyHasher} (now : Number) (filters : QueryFilters)
    (opts : option RefetchOptions) (client : QueryClient) : Outcome :=
  let '(promises, client, events) :=
    fetchEach (QueryCache_findAll now filters (queryCache client)) client in
  let promise := Promise_then (Promise_all promises) noop in
  let promise :=
    if negb (default false (opts ≫= throwOnError))
    then Promise_catch promise noop
    else promise in
  (promise, client, [Batch events]).

Definition refetchFilters (filters : QueryFilters) : QueryFilters :=
  mkQueryFilters (filter_queryKey filters) (exact filters)
    (Some (default true (refetchActive filters)))
    (Some (default false (refetchInactive filters)))
    (stale filters) (fetching filters) (predicate filters)
    (refetchActive filters) (refetchInactive filters).

Definition invalidateEach (refs : list QueryRef) (cache : QueryCache) : QueryCache :=
  foldl (λ cache ref, alter Query_invalidate ref cache) cache refs.

Definition invalidateQueries `{KeyHasher} (now : Number) (filters : QueryFilters)
    (opts : option RefetchOptions) (client : QueryClient) : Outcome :=
  let refs := QueryCache_findAll now filters (queryCache client) in
  let client := with_cache (invalidateEach refs (queryCache client)) client in
  let '(promise, client, events) :=
    refetchQueries now (refetchFilters filters) opts client in
  (promise, client, [Batch ((Invalidate <$> refs) ++ events)]).

(** ** queryClient.ts: the mounted clients and the focus/online callbacks

    Here a client is what the process-wide list sees of it: its identity and
    the identities of its two caches, which several clients may share. *)

Record ClientRef := mkClientRef {
  clientId : nat;
  client_queryCache : nat;
  client_mutationCache : nat
}.

Global Instance ClientRef_eq_dec : EqDecision ClientRef.
Proof. solve_decision. Defined.

Inductive Callback := onFocus_callback | onOnline_callback.

Record Bus := mkBus {
  mountedClients : list ClientRef;
  focusHandler : option Callback;
  onlineHandler : option Callback
}.

(** Modelled from the spec: [initFocusHandler(onFocus)] of focusHandler.ts,
    which is absent; the host registers the callback for the platform's
    visibility transitions. *)
Definition initFocusHandler (cb : Callback) (bus : Bus) : Bus :=
  mkBus (mountedClients bus) (Some cb) (onlineHandler bus).

(** Modelled from the spec: [initOnlineHandler(onOnline)] of onlineHandler.ts,
    which is absent; the host registers the callback for the platform's
    online transitions. *)
Definition initOnlineHandler (cb : Callback) (bus : Bus) : Bus :=
  mkBus (mountedClients bus) (focusHandler bus) (Some cb).

Definition mount (this : ClientRef) (bus : Bus) : Bus :=
  let bus := mkBus (mountedClients bus ++ [this]) (focusHandler bus) (onlineHandler bus) in
  let bus := initFocusHandler onFocus_callback bus in
  initOnlineHandler onOnline_callback bus.

(** [array.indexOf(x)]: the first index that holds [x], or -1. *)
Fixpoint indexOf `{EqDecision A} (x : A) (l : list A) : Z :=
  match l with
  | [] => -1
  | y :: l =>
      if decide (y = x) then 0
      else let i := indexOf x l in if decide (i = -1)%Z then (-1)%Z else (i + 1)%Z
  end.

Definition unmount (this : ClientRef) (bus : Bus) : Bus :=
  let index := indexOf this (mountedClients bus) in
  if decide (index > -1)%Z
  then mkBus (delete (Z.to_nat index) (mountedClients bus))
             (focusHandler bus) (onlineHandler bus)
  else bus.

(** How many times a client is in the list of mounted clients. *)
Definition registrations (this : ClientRef) (bus : Bus) : nat :=
  length (filter (λ client, client = this) (mountedClients bus)).

(** Modelled from the spec: [uniq] of utils.ts, which is absent; duplicates
    are removed, the first occurrence of each element stays. *)
Definition uniq `{EqDecision A} (array : list A) : list A :=
  (filter (λ iv, indexOf iv.2 array = Z.of_nat iv.1) (imap pair array)).*2.

Definition getQueryCaches (bus : Bus) : list nat :=
  uniq (client_queryCache <$> mountedClients bus).

Definition getMutationCaches (bus : Bus) : list nat :=
  uniq (client_mutationCache <$> mountedClients bus).

(** A call of [cache.onFocus()] or [cache.onOnline()] on a cache. *)
Inductive Signal := focus | online.
Inductive CacheKind := mutation_cache | query_cache.

Global Instance Signal_eq_dec : EqDecision Signal.
Proof. solve_decision. Defined.

Global Instance CacheKind_eq_dec : EqDecision CacheKind.
Proof. solve_decision. Defined.

Record Notification := notify {
  notified_kind : CacheKind;
  notified_cache : nat;
  notified_signal : Signal
}.

Global Instance Notification_eq_dec : EqDecision Notification.
Proof. solve_decision. Defined.

(** [isVisibleAndOnline()] (utils.ts, absent) reads the platform: its answer
    is an input. *)
Definition onFocus (isVisibleAndOnline : bool) (bus : Bus) : list Notification :=
  if isVisibleAndOnline
  then ((λ cache, notify mutation_cache cache focus) <$> getMutationCaches bus)
       ++ ((λ cache, notify query_cache cache focus) <$> getQueryCaches bus)
  else [].

Definition onOnline (isVisibleAndOnline : bool) (bus : Bus) : list Notification :=
  if isVisibleAndOnline
  then ((λ cache, notify mutation_cache cache online) <$> getMutationCaches bus)
       ++ ((λ cache, notify query_cache cache online) <$> getQueryCaches bus)
  else [].

(** ** The order that [<] tests *)

Global Instance Number_eq_dec : EqDecision Number.
Proof. solve_decision. Defined.

(** The place of a number in that order: the infinities outermost, then the
    finite numbers by sign, exponent and mantissa, the zeros in the middle;
    NaN has no place. *)
Definition rank (v : Number) : option (Z * Z * Z) :=
  match v with
  | S754_nan => None
  | S754_infinity true => Some (-2, 0, 0)%Z
  | S754_infinity false => Some (2, 0, 0)%Z
  | S754_zero _ => Some (0, 0, 0)%Z
  | S754_finite true m e => Some (-1, - e, - Z.pos m)%Z
  | S754_finite false m e => Some (1, e, Z.pos m)%Z
  end.

Definition rank_lt (x y : Z * Z * Z) : Prop :=
  (x.1.1 < y.1.1
   ∨ x.1.1 = y.1.1 ∧ (x.1.2 < y.1.2 ∨ x.1.2 = y.1.2 ∧ x.2 < y.2))%Z.

(** ** queryClient.ts: reading, counting, removing and cancelling queries *)

(** [getQueryState(queryKey)] and [getQueryData(queryKey)], called without
    filters: [undefined] when the cache has no Query for the key. *)
Definition getQueryState `{KeyHasher} (queryKey : QueryKey) (client : QueryClient)
    : option QueryState :=
  (λ found, state found.2) <$> QueryCache_find queryKey (queryCache client).

Definition getQueryData `{KeyHasher} (queryKey : QueryKey) (client : QueryClient)
    : JsVal :=
  match QueryCache_find queryKey (queryCache client) with
  | Some (_, query) => data (state query)
  | None => VUndefined
  end.

(** [filters.fetching = true]. *)
Definition set_fetching (filters : QueryFilters) : QueryFilters :=
  mkQueryFilters (filter_queryKey filters) (exact filters) (active filters)
    (inactive filters) (stale filters) (Some true) (predicate filters)
    (refetchActive filters) (refetchInactive filters).

(** The filters with another [fetching], or none. *)
Definition with_fetching (flag : option bool) (filters : QueryFilters) : QueryFilters :=
  mkQueryFilters (filter_queryKey filters) (exact filters) (active filters)
    (inactive filters) (stale filters) flag (predicate filters)
    (refetchActive filters) (refetchInactive filters).

(** [isFetching(filters)], from the filters that [parseFilterArgs] normalised
    the arguments to. *)
Definition QueryClient_isFetching `{KeyHasher} (now : Number) (filters : QueryFilters)
    (client : QueryClient) : nat :=
  length (QueryCache_findAll now (set_fetching filters) (queryCache client)).

(** Modelled from the spec: [cache.remove(query)] of queryCache.ts, which is
    absent; the entry is taken out of the store. *)
Definition QueryCache_remove (ref : QueryRef) (cache : QueryCache) : QueryCache :=
  delete ref cache.

(** [removeQueries(filters)]; the batch it runs in only groups the
    notifications of the removals. *)
Definition removeQueries `{KeyHasher} (now : Number) (filters : QueryFilters)
    (client : QueryClient) : QueryClient :=
  with_cache
    (foldl (λ cache ref, QueryCache_remove ref cache) (queryCache client)
           (QueryCache_findAll now filters (queryCache client)))
    client.

Record CancelOptions := mkCancelOptions {
  revert : option bool;
  silent : option bool
}.

(** [query.cancel(options)] (query.ts, absent) is taken as an interface: what
    it does to the Query and the promise it returns. *)
Class QueryCanceller := {
  Query_cancel : CancelOptions → Query → Query * Promise
}.

(** [cancelOptions.revert = true] when it is undefined. *)
Definition revertDefaulted (cancelOptions : CancelOptions) : CancelOptions :=
  match revert cancelOptions with
  | None => mkCancelOptions (Some true) (silent cancelOptions)
  | Some _ => cancelOptions
  end.

(** [query.cancel(cancelOptions)] on each Query in turn; the calls are
    recorded with the options they received. *)
Fixpoint cancelEach `{QueryCanceller} (cancelOptions : CancelOptions)
    (refs : list QueryRef) (cache : QueryCache)
    : list Promise * QueryCache * list (QueryRef * CancelOptions) :=
  match refs with
  | [] => ([], cache, [])
  | ref :: refs =>
      match cache !! ref with
      | Some query =>
          let '(query, promise) := Query_cancel cancelOptions query in
          let '(promises, cache, calls) :=
            cancelEach cancelOptions refs (<[ref := query]> cache) in
          (promise :: promises, cache, (ref, cancelOptions) :: calls)
      | None => cancelEach cancelOptions refs cache
      end
  end.

(** [cancelQueries(filters, options)], from the filters and options that
    [parseFilterArgs] normalised the arguments to. *)
Definition cancelQueries `{KeyHasher} `{QueryCanceller} (now : Number)
    (filters : QueryFilters) (opts : option CancelOptions) (client : QueryClient)
    : Promise * QueryClient * list (QueryRef * CancelOptions) :=
  let cancelOptions := default (mkCancelOptions None None) opts in
  let cancelOptions := revertDefaulted cancelOptions in
  let '(promises, cache, calls) :=
    cancelEach cancelOptions
      (QueryCache_findAll now filters (queryCache client)) (queryCache client) in
  (Promise_catch (Promise_then (Promise_all promises) noop) noop,
   with_cache cache client, calls).

(** ** queryClient.ts: defaults per key *)

(** [utils.partialDeepEqual] (absent) is taken as an interface. *)
Class DeepEqual := {
  partialDeepEqual : JsVal → JsVal → bool
}.

Record QueryDefaults := mkQueryDefaults {
  queryDefaults_queryKey : QueryKey;
  queryDefaults_defaultOptions : Options
}.

Record MutationDefaults := mkMutationDefaults {
  mutationDefaults_mutationKey : JsVal;
  mutationDefaults_defaultOptions : Options
}.

(** [setQueryDefaults] and [getQueryDefaults] on the client's private
    [queryDefaults] array; [array.find] gives the first element that
    satisfies the test. *)
Definition setQueryDefaults `{DeepEqual} (queryKey : QueryKey) (options : Options)
    (queryDefaults : list QueryDefaults) : list QueryDefaults :=
  match list_find (λ x, partialDeepEqual (queryDefaults_queryKey x) queryKey = true)
                  queryDefaults with
  | Some (i, _) =>
      alter (λ result, mkQueryDefaults (queryDefaults_queryKey result) options)
            i queryDefaults
  | None => queryDefaults ++ [mkQueryDefaults queryKey options]
  end.

Definition getQueryDefaults `{DeepEqual} (queryKey : QueryKey)
    (queryDefaults : list QueryDefaults) : option Options :=
  (λ found, queryDefaults_defaultOptions found.2)
    <$> list_find (λ x, partialDeepEqual (queryDefaults_queryKey x) queryKey = true)
                  queryDefaults.

(** [setMutationDefaults] and [getMutationDefaults] on the private
    [mutationDefaults] array. *)
Definition setMutationDefaults `{DeepEqual} (mutationKey : JsVal) (options : Options)
    (mutationDefaults : list MutationDefaults) : list MutationDefaults :=
  match list_find
          (λ x, partialDeepEqual (mutationDefaults_mutationKey x) mutationKey = true)
          mutationDefaults with
  | Some (i, _) =>
      alter (λ result, mkMutationDefaults (mutationDefaults_mutationKey result) options)
            i mutationDefaults
  | None => mutationDefaults ++ [mkMutationDefaults mutationKey options]
  end.

Definition getMutationDefaults `{DeepEqual} (mutationKey : JsVal)
    (mutationDefaults : list MutationDefaults) : option Options :=
  (λ found, mutationDefaults_defaultOptions found.2)
    <$> list_find
          (λ x, partialDeepEqual (mutationDefaults_mutationKey x) mutationKey = true)
          mutationDefaults.

(** A cache that files every Query under its own hash. *)
Definition keyed (cache : QueryCache) : Prop :=
  ∀ h q, cache !! h = Some q → queryHash q = h.

(** The options that [hydrate] restores a dehydrated query with. *)
Definition restoreOptions (defaultOptions : Options) (dq : DehydratedQuery) : Options :=
  <["cacheTime" := VNum (deserializePositiveNumber (config_cacheTime (dq_config dq)))]>
    (<["queryHash" := VStr (dq_queryHash dq)]>
       (<["queryKey" := dq_queryKey dq]> defaultOptions)).

(** A client whose cache holds, for the hash of a dehydrated query, a Query
    that the dehydrated query is not newer than. *)
Definition absorbs (client : QueryClient) (dq : DehydratedQuery) : Prop :=
  ∃ q, queryCache client !! dq_queryHash dq = Some q
       ∧ lt (updatedAt (state q)) (updatedAt (dq_state dq)) = false.

(** ** Sample data for the examples below *)

(** A key hasher for string keys: the key itself; two string keys match
    partially when they are equal. *)
Definition sampleHasher : KeyHasher :=
  {| hashQueryKey key := match key with VStr s => s | _ => "" end;
     partialMatchKey key filterKey :=
       match key, filterKey with
       | VStr a, VStr b => bool_decide (a = b)
       | _, _ => false
       end |}.

Definition sampleState (value : string) (at_ : Z) : QueryState :=
  mkQueryState (VStr value) (num at_) VUndefined (num 0) (num at_) 0 false false success.

Definition sampleQuery (key value : string) (at_ : Z) (o : Options)
    (observers : list QueryObserver) : Query :=
  mkQuery (VStr key) key (sampleState value at_) DEFAULT_CACHE_TIME o observers.

Definition sampleClient (cache : QueryCache) : QueryClient :=
  mkQueryClient cache (mkDefaultOptions None None).


(** * Properties *)

(** ** Numbers *)

Lemma compare_cont_swap (m n : positive) :
  PosDef.Pos.compare_cont Eq n m = CompOpp (PosDef.Pos.compare_cont Eq m n).
Proof. symmetry. exact (Pos.compare_cont_antisym m n Eq). Qed.

Lemma SFcompare_swap (a b : Number) :
  SFcompare b a = CompOpp <$> SFcompare a b.
Proof.
  destruct a as [sa|sa| |sa ma ea], b as [sb|sb| |sb mb eb]; simpl;
    try reflexivity; try (by destruct sa); try (by destruct sb);
    try (by destruct sa, sb).
  destruct sa, sb; simpl; try reflexivity; f_equal;
    rewrite (Z.compare_antisym ea eb); destruct (ea ?= eb)%Z; simpl;
    try reflexivity; by rewrite (compare_cont_swap ma mb).
Qed.

Lemma lt_gt (a b : Number) : lt a b = gt b a.
Proof.
  unfold lt, gt. rewrite (SFcompare_swap a b).
  by destruct (SFcompare a b) as [[]|].
Qed.

Lemma lt_not_ge (a b : Number) : lt a b = true → ge a b = false.
Proof. unfold ge, lt. by destruct (SFcompare a b) as [[]|]. Qed.

Lemma ge_not_gt_swap (a b : Number) : ge a b = true → gt b a = false.
Proof. unfold ge. rewrite <- lt_gt. unfold lt. by destruct (SFcompare a b) as [[]|]. Qed.

(** ** Hydration *)

Section hydration.
Context `{KeyHasher}.

Lemma hashOf_hydrated (d : Options) (key : QueryKey) (h : string) (ct : JsVal) :
  hashOf (<["cacheTime" := ct]> (<["queryHash" := VStr h]> (<["queryKey" := key]> d))) = h.
Proof.
  unfold hashOf, prop.
  rewrite lookup_insert_ne by done. by rewrite lookup_insert_eq.
Qed.

Lemma cacheTimeOf_hydrated (d : Options) (n : Number) :
  cacheTimeOf (<["cacheTime" := VNum n]> d) = n.
Proof. unfold cacheTimeOf, prop. by rewrite lookup_insert_eq. Qed.

(** An entry of the payload whose hash is in the cache: the state is
    replaced when the entry is newer, and nothing else happens. *)
Lemma hydrateQuery_present (d : Options) (client : QueryClient)
    (dq : DehydratedQuery) (q : Query) :
  queryCache client !! dq_queryHash dq = Some q →
  queryCache (hydrateQuery d client dq) !! dq_queryHash dq =
    Some (if gt (updatedAt (dq_state dq)) (updatedAt (state q))
          then Query_setState (dq_state dq) q else q).
Proof.
  intros Hq. unfold hydrateQuery, QueryCache_get, getQueryCache.
  rewrite Hq, lt_gt.
  destruct (gt _ _); simpl; [|done].
  by rewrite lookup_alter_eq, Hq.
Qed.

(** An entry of the payload whose hash is not in the cache: a Query is
    restored with the decoded cache time. *)
Lemma hydrateQuery_absent (d : Options) (client : QueryClient)
    (dq : DehydratedQuery) :
  queryCache client !! dq_queryHash dq = None →
  ∃ q, queryCache (hydrateQuery d client dq) !! dq_queryHash dq = Some q
       ∧ state q = dq_state dq
       ∧ queryHash q = dq_queryHash dq
       ∧ queryKey q = dq_queryKey dq
       ∧ cacheTime q = deserializePositiveNumber (config_cacheTime (dq_config dq)).
Proof.
  intros Hq. unfold hydrateQuery, QueryCache_get, getQueryCache.
  rewrite Hq. unfold restoreQuery, QueryCache_restore. simpl.
  rewrite hashOf_hydrated, lookup_insert_eq.
  eexists; split; [done|]. unfold newQuery; simpl.
  rewrite hashOf_hydrated, cacheTimeOf_hydrated.
  repeat split. unfold prop.
  rewrite lookup_insert_ne by done. rewrite lookup_insert_ne by done.
  by rewrite lookup_insert_eq.
Qed.

(** The other queries of the cache are not touched. *)
Lemma hydrateQuery_other (d : Options) (client : QueryClient)
    (dq : DehydratedQuery) (h : string) :
  dq_queryHash dq ≠ h →
  queryCache (hydrateQuery d client dq) !! h = queryCache client !! h.
Proof.
  intros Hne. unfold hydrateQuery, QueryCache_get, getQueryCache.
  destruct (queryCache client !! dq_queryHash dq) as [q|] eqn:Hq.
  - destruct (lt _ _); simpl; [|done]. by rewrite lookup_alter_ne.
  - unfold restoreQuery, QueryCache_restore. simpl.
    rewrite hashOf_hydrated. by rewrite lookup_insert_ne.
Qed.

Lemma hydrate_object (client : QueryClient) (qs : option (list DehydratedQuery))
    (opts : option HydrateOptions) :
  hydrate client (UObject qs) opts =
    foldl (hydrateQuery (default ∅ (opts ≫= hydrate_defaultOptions)))
          client (default [] qs).
Proof. reflexivity. Qed.

Lemma hydrate_others (d : Options) (h : string) (post : list DehydratedQuery) :
  ∀ client,
    (∀ dq, dq ∈ post → dq_queryHash dq ≠ h) →
    queryCache (foldl (hydrateQuery d) client post) !! h = queryCache client !! h.
Proof.
  induction post as [|dq post IH]; intros client Hpost; [done|].
  simpl. rewrite IH.
  - apply hydrateQuery_other, Hpost. by left.
  - intros dq' Hin. apply Hpost. by right.
Qed.

(** A Query at least as new as every entry of its hash is left as it is. *)
Lemma hydrate_older (d : Options) (h : string) (q : Query)
    (qs : list DehydratedQuery) :
  ∀ client,
    queryCache client !! h = Some q →
    (∀ dq, dq ∈ qs → dq_queryHash dq = h →
           ge (updatedAt (state q)) (updatedAt (dq_state dq)) = true) →
    queryCache (foldl (hydrateQuery d) client qs) !! h = Some q.
Proof.
  induction qs as [|dq qs IH]; intros client Hq Hold; [done|].
  simpl. apply IH.
  - destruct (decide (dq_queryHash dq = h)) as [<-|Hne].
    + rewrite (hydrateQuery_present _ _ _ _ Hq).
      rewrite ge_not_gt_swap; [done|]. apply Hold; [by left|done].
    + by rewrite hydrateQuery_other.
  - intros dq' Hin. apply Hold. by right.
Qed.

End hydration.

Section hydration_claims.
Context `{KeyHasher}.

Lemma hydrate_cacheTime (d : Options) (h : string) (ct : Number)
    (qs : list DehydratedQuery) :
  ∀ client,
    (∀ dq, dq ∈ qs → dq_queryHash dq = h →
           deserializePositiveNumber (config_cacheTime (dq_config dq)) = ct) →
    match queryCache client !! h with
    | Some q => cacheTime q = ct
    | None => ∃ dq, dq ∈ qs ∧ dq_queryHash dq = h
    end →
    ∃ q', queryCache (foldl (hydrateQuery d) client qs) !! h = Some q'
          ∧ cacheTime q' = ct.
Proof.
  induction qs as [|dq qs IH]; intros client Hct Hstart.
  - simpl. destruct (queryCache client !! h) as [q|]; [by eexists|].
    destruct Hstart as (dq & Hin & _). by apply elem_of_nil in Hin.
  - simpl. apply IH; [intros dq' Hin; apply Hct; by right|].
    destruct (decide (dq_queryHash dq = h)) as [<-|Hne].
    + destruct (queryCache client !! dq_queryHash dq) as [q|] eqn:Hq.
      * rewrite (hydrateQuery_present _ _ _ _ Hq). by destruct (gt _ _).
      * destruct (hydrateQuery_absent d _ _ Hq) as (q' & -> & _ & _ & _ & Hq').
        rewrite Hq'. apply Hct; [by left|done].
    + rewrite hydrateQuery_other by done.
      destruct (queryCache client !! h) as [q|]; [done|].
      destruct Hstart as (dq' & Hin & Hh). exists dq'. split; [|done].
      apply elem_of_cons in Hin as [->|Hin]; [done|done].
Qed.

(** C1: a dehydrated query that finds a Query of its hash in the cache when
    [hydrate] reaches it replaces that Query's state if and only if
    [dehydrated.state.updatedAt > existing.state.updatedAt]; when the
    existing Query is at least as new it is left unchanged; and a Query that
    is at least as new as every entry of its hash comes out of [hydrate]
    unchanged. *)
Theorem hydrate_overwrites_iff_newer (client : QueryClient)
    (pre post : list DehydratedQuery) (dq : DehydratedQuery)
    (opts : option HydrateOptions) (q : Query) :
  queryCache (hydrate client (UObject (Some pre)) opts) !! dq_queryHash dq = Some q →
  (∀ dq', dq' ∈ post → dq_queryHash dq' ≠ dq_queryHash dq) →
  let client' := hydrate client (UObject (Some (pre ++ dq :: post))) opts in
  queryCache client' !! dq_queryHash dq =
    Some (if gt (updatedAt (dq_state dq)) (updatedAt (state q))
          then Query_setState (dq_state dq) q else q)
  ∧ (ge (updatedAt (state q)) (updatedAt (dq_state dq)) = true →
     queryCache client' !! dq_queryHash dq = Some q)
  ∧ (∀ (qs : list DehydratedQuery) (h : string) (q0 : Query),
       queryCache client !! h = Some q0 →
       (∀ dq', dq' ∈ qs → dq_queryHash dq' = h →
               ge (updatedAt (state q0)) (updatedAt (dq_state dq')) = true) →
       queryCache (hydrate client (UObject (Some qs)) opts) !! h = Some q0).
Proof.
  intros Hq Hpost client'.
  assert (queryCache client' !! dq_queryHash dq =
            Some (if gt (updatedAt (dq_state dq)) (updatedAt (state q))
                  then Query_setState (dq_state dq) q else q)) as Hres.
  { subst client'. rewrite hydrate_object in *. simpl in *.
    rewrite foldl_app. simpl. rewrite hydrate_others by done.
    by apply hydrateQuery_present. }
  split; [done|]. split.
  - intros Hge. rewrite Hres. by rewrite ge_not_gt_swap.
  - intros qs h q0 Hq0 Hold. rewrite hydrate_object. simpl.
    by apply hydrate_older.
Qed.

(** C8: a payload that is not an object, or is [null], or is an object
    without [queries], leaves the client, and so its Query Cache, as it
    was. *)
Theorem hydrate_skips_non_payload (client : QueryClient) (u : Unknown)
    (opts : option HydrateOptions) :
  typeof_unknown u ≠ "object" ∨ u = UNull ∨ u = UObject None →
  hydrate client u opts = client
  ∧ queryCache (hydrate client u opts) = queryCache client.
Proof.
  intros [Hty|[->| ->]].
  - unfold hydrate. rewrite bool_decide_eq_true_2 by done. done.
  - done.
  - done.
Qed.

Lemma push_each {A B} (p : A → bool) (f : A → B) (l : list A) :
  ∀ acc,
    foldl (λ acc x, if p x then acc ++ [f x] else acc) acc l =
      acc ++ (f <$> filter (λ x, p x = true) l).
Proof.
  induction l as [|x l IH]; intros acc; simpl.
  - by rewrite app_nil_r.
  - rewrite IH. rewrite filter_cons. destruct (p x) eqn:Hp.
    + rewrite decide_True by done. simpl. by rewrite <- app_assoc.
    + rewrite decide_False by (by intros ?). done.
Qed.

Lemma dehydrate_default_queries (client : QueryClient) :
  queries (dehydrate client None) =
    dehydrateQuery <$> filter (λ q, status (state q) = success)
                              (QueryCache_getAll (getQueryCache client)).
Proof.
  unfold dehydrate. simpl. rewrite push_each. simpl. f_equal.
  apply list_filter_iff. intros q. unfold defaultShouldDehydrate.
  by rewrite bool_decide_eq_true.
Qed.

Lemma elem_of_getAll (cache : QueryCache) (q : Query) :
  q ∈ QueryCache_getAll cache ↔ ∃ h, cache !! h = Some q.
Proof.
  unfold QueryCache_getAll. rewrite list_elem_of_fmap. split.
  - intros ([h q'] & -> & Hin). exists h. by apply elem_of_map_to_list.
  - intros (h & Hq). exists (h, q). split; [done|].
    by apply elem_of_map_to_list.
Qed.

Lemma elem_of_dehydrate_default (client : QueryClient) (dq : DehydratedQuery) :
  dq ∈ queries (dehydrate client None) ↔
    ∃ h q, queryCache client !! h = Some q
           ∧ status (state q) = success ∧ dq = dehydrateQuery q.
Proof.
  rewrite dehydrate_default_queries, list_elem_of_fmap. split.
  - intros (q & -> & Hin). apply list_elem_of_filter in Hin as [Hs Hin].
    apply elem_of_getAll in Hin as [h Hq]. by exists h, q.
  - intros (h & q & Hq & Hs & ->). exists q. split; [done|].
    apply list_elem_of_filter. split; [done|]. apply elem_of_getAll. by exists h.
Qed.

(** C3: without [shouldDehydrate], [dehydrate] emits exactly the queries of
    the cache whose status is [success], each as
    [{queryKey, queryHash, state, config: {cacheTime}}], once per Query, and
    none whose status is [loading], [error] or [idle]. *)
Theorem dehydrate_default_success_only (client : QueryClient) :
  queries (dehydrate client None) =
    dehydrateQuery <$> filter (λ q, status (state q) = success)
                              (QueryCache_getAll (getQueryCache client))
  ∧ dehydrate client (Some {| shouldDehydrate := None |}) = dehydrate client None
  ∧ (∀ dq, dq ∈ queries (dehydrate client None) ↔
           ∃ h q, queryCache client !! h = Some q
                  ∧ status (state q) = success
                  ∧ dq_queryKey dq = queryKey q
                  ∧ dq_queryHash dq = queryHash q
                  ∧ dq_state dq = state q
                  ∧ dq_config dq =
                      {| config_cacheTime := serializePositiveNumber (cacheTime q) |})
  ∧ (∀ dq, dq ∈ queries (dehydrate client None) →
           status (dq_state dq) ≠ loading
           ∧ status (dq_state dq) ≠ error
           ∧ status (dq_state dq) ≠ idle)
  ∧ length (queries (dehydrate client None)) =
      length (filter (λ hq, status (state hq.2) = success)
                     (map_to_list (queryCache client))).
Proof.
  split; [apply dehydrate_default_queries|]. split; [done|]. split; [|split].
  - intros dq. rewrite elem_of_dehydrate_default. split.
    + intros (h & q & Hq & Hs & ->). by exists h, q.
    + intros (h & q & Hq & Hs & Hk & Hh & Hst & Hc). exists h, q.
      split; [done|]. split; [done|]. destruct dq; simpl in *. by subst.
  - intros dq Hin. apply elem_of_dehydrate_default in Hin as (h & q & _ & Hs & ->).
    simpl. rewrite Hs. done.
  - rewrite dehydrate_default_queries, length_fmap.
    unfold QueryCache_getAll, getQueryCache.
    induction (map_to_list (queryCache client)) as [|[h q] l IH]; [done|].
    rewrite fmap_cons, !filter_cons. simpl.
    destruct (decide (status (state q) = success)); simpl; by rewrite IH.
Qed.

Lemma strict_eq_sound_minus_one (v : Number) :
  nonneg_finite v = true → strict_eq v (num (-1)) = false.
Proof. by destruct v as [s|s| |[] m e]. Qed.

Lemma strict_eq_sound_Infinity (v : Number) :
  nonneg_finite v = true → strict_eq v Infinity = false.
Proof. by destruct v as [s|s| |[] m e]. Qed.

Lemma roundtrip_positive_number (ct : Number) :
  ct = Infinity ∨ nonneg_finite ct = true →
  deserializePositiveNumber (serializePositiveNumber ct) = ct.
Proof.
  intros [->|Hfin]; [done|].
  unfold serializePositiveNumber. rewrite strict_eq_sound_Infinity by done.
  unfold deserializePositiveNumber. by rewrite strict_eq_sound_minus_one.
Qed.

(** C4: [deserializePositiveNumber (serializePositiveNumber cacheTime)] is
    [cacheTime] for every cache time that is [Infinity] or finite and not
    negative; [Infinity] is encoded as [-1] and [-1] decoded as [Infinity];
    and a successful Query with such a cache time that is dehydrated, then
    hydrated into a cache that does not hold its hash, is restored with
    that cache time. *)
Theorem cacheTime_roundtrip (ct : Number) :
  ct = Infinity ∨ nonneg_finite ct = true →
  deserializePositiveNumber (serializePositiveNumber ct) = ct
  ∧ serializePositiveNumber Infinity = num (-1)
  ∧ deserializePositiveNumber (num (-1)) = Infinity
  ∧ (∀ (A B : QueryClient) (q : Query) (opts : option HydrateOptions),
       (∀ h q', queryCache A !! h = Some q' → queryHash q' = h) →
       queryCache A !! queryHash q = Some q →
       status (state q) = success →
       cacheTime q = ct →
       queryCache B !! queryHash q = None →
       ∃ q', queryCache (hydrate B (payload (dehydrate A None)) opts)
               !! queryHash q = Some q'
             ∧ cacheTime q' = ct
             ∧ config_cacheTime (dq_config (dehydrateQuery q))
               = serializePositiveNumber ct).
Proof.
  intros Hct. split; [by apply roundtrip_positive_number|].
  split; [done|]. split; [done|].
  intros A B q opts Hwf Hq Hs Hqct HB.
  unfold payload. rewrite hydrate_object. simpl.
  destruct (hydrate_cacheTime (default ∅ (opts ≫= hydrate_defaultOptions))
              (queryHash q) ct (queries (dehydrate A None)) B) as (q' & Hq' & Hct').
  - intros dq Hin Hh.
    apply elem_of_dehydrate_default in Hin as (h & q0 & Hq0 & _ & ->).
    simpl in *. pose proof (Hwf _ _ Hq0) as Hh0.
    assert (q0 = q) as -> by congruence.
    rewrite Hqct. by apply roundtrip_positive_number.
  - rewrite HB. exists (dehydrateQuery q). split; [|done].
    apply elem_of_dehydrate_default. by exists (queryHash q), q.
  - exists q'. repeat split; [done|done|]. simpl. by rewrite Hqct.
Qed.

End hydration_claims.

(** Examples: an older payload does not overwrite, a newer one does. *)

Lemma hydrate_overwrites_iff_newer_witness :
  let client := sampleClient {["k" := sampleQuery "k" "older" 100 ∅ []]} in
  let dq := dehydrateQuery (sampleQuery "k" "newer" 200 ∅ []) in
  queryCache (@hydrate sampleHasher client (UObject (Some [dq])) None) !! "k"
  = Some (sampleQuery "k" "newer" 200 ∅ []).
Proof.
  intros client dq.
  refine (proj1 (@hydrate_overwrites_iff_newer sampleHasher client [] [] dq None
                   (sampleQuery "k" "older" 100 ∅ []) _ _)).
  - vm_compute. reflexivity.
  - intros dq' Hin. by apply elem_of_nil in Hin.
Defined.

Lemma hydrate_skips_non_payload_witness :
  let client := sampleClient {["k" := sampleQuery "k" "v" 100 ∅ []]} in
  @hydrate sampleHasher client (UString "{}") None = client.
Proof.
  intros client.
  refine (proj1 (@hydrate_skips_non_payload sampleHasher client (UString "{}") None _)).
  left. vm_compute. discriminate.
Defined.

Lemma cacheTime_roundtrip_witness :
  deserializePositiveNumber (serializePositiveNumber Infinity) = Infinity.
Proof.
  refine (proj1 (@cacheTime_roundtrip sampleHasher Infinity _)).
  left. reflexivity.
Defined.

(** ** The facade: [fetchQueryData] and [prefetchQuery] *)

Section fetching.
Context `{KeyHasher}.

Lemma fetchAt_present (ref : QueryRef) (o : option Options)
    (client : QueryClient) (q : Query) :
  queryCache client !! ref = Some q →
  fetchAt ref o client =
    (Query_promise ref,
     with_cache (<[ref := (Query_fetch o q).1]> (queryCache client)) client,
     [Fetch ref o (negb (Query_isFetching q))]).
Proof.
  intros Hq. unfold fetchAt. rewrite Hq. unfold Query_fetch.
  by destruct (Query_isFetching q).
Qed.

Lemma find_Some (key : QueryKey) (cache : QueryCache) (ref : QueryRef) (q : Query) :
  QueryCache_find key cache = Some (ref, q) → cache !! ref = Some q.
Proof.
  unfold QueryCache_find. destruct (cache !! hashQueryKey key) eqn:Hq; [|done].
  simpl. by intros [= <- <-].
Qed.

Lemma buildQuery_present (o : Options) (client : QueryClient) :
  ∃ q, buildQuery o client =
         (hashOf o, with_cache (<[hashOf o := q]> (queryCache client)) client)
       ∧ (queryCache client !! hashOf o = None → q = newQuery o (initialState o)).
Proof.
  unfold buildQuery, QueryCache_build.
  destruct (queryCache client !! hashOf o) as [q|].
  - by exists (with_options (Some o) q).
  - by exists (newQuery o (initialState o)).
Qed.

Lemma fetchQueryData_cases (now : Number)
    (parsedOptions : Options) (client : QueryClient) :
  let defaulted := defaultQueryOptions client (retryDefaulted parsedOptions) in
  let found := QueryCache_find (prop "queryKey" defaulted) (queryCache client) in
  (∀ ref query,
     found = Some (ref, query) →
     isInvalidated (state query) = false →
     lt (minus now (dataUpdatedAt (state query)))
        (staleTimeOf (prop "staleTime" defaulted)) = true →
     Query_isStaleByTime now (prop "staleTime" defaulted) query = false
     ∧ fetchQueryData now parsedOptions client =
       (Promise_resolve (data (state query)), client, [])
     ∧ flat_map refetched (fetchQueryData now parsedOptions client).2 = []
     ∧ ∀ fetched, settle fetched (fetchQueryData now parsedOptions client).1.1
                  = Fulfilled (data (state query)))
  ∧ (∀ ref query,
       found = Some (ref, query) →
       Query_isStaleByTime now (prop "staleTime" defaulted) query = true →
       ∃ client',
         fetchQueryData now parsedOptions client =
           (Query_promise ref, client',
            [Fetch ref (Some defaulted) (negb (Query_isFetching query))])
         ∧ queryCache client' !! ref = Some (Query_fetch (Some defaulted) query).1)
  ∧ (found = None →
     ∃ client' started,
       fetchQueryData now parsedOptions client =
         (Query_promise (hashOf defaulted), client',
          [Fetch (hashOf defaulted) (Some defaulted) started])
       ∧ is_Some (queryCache client' !! hashOf defaulted)
       ∧ (queryCache client !! hashOf defaulted = None → started = true)).
Proof.
  intros defaulted found. subst found. unfold fetchQueryData. fold defaulted.
  split; [|split].
  - intros ref query -> Hinv Hage%lt_not_ge.
    unfold Query_isStaleByTime. rewrite Hinv, Hage. simpl. done.
  - intros ref query Hfound Hstale. rewrite Hfound, Hstale. simpl.
    apply find_Some in Hfound.
    rewrite (fetchAt_present _ _ _ _ Hfound).
    eexists. split; [done|]. simpl. by rewrite lookup_insert_eq.
  - intros ->.
    destruct (buildQuery_present defaulted client) as (q & -> & Hnew).
    rewrite (fetchAt_present _ _ _ q) by (simpl; by rewrite lookup_insert_eq).
    eexists _, _. split; [done|]. simpl. rewrite lookup_insert_eq.
    split; [by eexists|]. intros Hnone. by rewrite (Hnew Hnone).
Qed.

Lemma fetchQueryData_events (now : Number) (parsedOptions : Options)
    (client : QueryClient) :
  let defaulted := defaultQueryOptions client (retryDefaulted parsedOptions) in
  (fetchQueryData now parsedOptions client).2 = []
  ∨ ∃ ref started,
      (fetchQueryData now parsedOptions client).2 = [Fetch ref (Some defaulted) started].
Proof.
  intros defaulted.
  pose proof (fetchQueryData_cases now parsedOptions client)
    as (Hfresh & Hstale & Hnone).
  fold defaulted in Hfresh, Hstale, Hnone.
  destruct (QueryCache_find (prop "queryKey" defaulted) (queryCache client))
    as [[ref query]|] eqn:Hfound.
  - destruct (Query_isStaleByTime now (prop "staleTime" defaulted) query) eqn:Hs.
    + destruct (Hstale ref query eq_refl Hs) as (client' & -> & _).
      right. by eexists _, _.
    + left. unfold fetchQueryData. fold defaulted. by rewrite Hfound, Hs.
  - destruct (Hnone eq_refl) as (client' & started & -> & _).
    right. by eexists _, _.
Qed.

Lemma prefetchQuery_events (now : Number) (parsedOptions : Options)
    (client : QueryClient) :
  (prefetchQuery now parsedOptions client).2
  = (fetchQueryData now parsedOptions client).2.
Proof.
  unfold prefetchQuery.
  by destruct (fetchQueryData now parsedOptions client) as [[p c] es].
Qed.

(** C2: when the cache holds a Query for the key that is not stale under
    the stale time of the call (not invalidated, and the age of its data is
    below the stale time), [fetchQueryData] resolves with the cached
    [state.data], calls no [fetch] and leaves the client as it was; when the
    Query is stale, or when there is none (it is then built), it calls
    [fetch] on it and returns that promise. *)
Theorem fetchQueryData_cached_unless_stale (now : Number)
    (parsedOptions : Options) (client : QueryClient) :
  let defaulted := defaultQueryOptions client (retryDefaulted parsedOptions) in
  let found := QueryCache_find (prop "queryKey" defaulted) (queryCache client) in
  (∀ ref query,
     found = Some (ref, query) →
     isInvalidated (state query) = false →
     lt (minus now (dataUpdatedAt (state query)))
        (staleTimeOf (prop "staleTime" defaulted)) = true →
     Query_isStaleByTime now (prop "staleTime" defaulted) query = false
     ∧ fetchQueryData now parsedOptions client =
       (Promise_resolve (data (state query)), client, [])
     ∧ flat_map refetched (fetchQueryData now parsedOptions client).2 = []
     ∧ ∀ fetched, settle fetched (fetchQueryData now parsedOptions client).1.1
                  = Fulfilled (data (state query)))
  ∧ (∀ ref query,
       found = Some (ref, query) →
       Query_isStaleByTime now (prop "staleTime" defaulted) query = true →
       ∃ client',
         fetchQueryData now parsedOptions client =
           (Query_promise ref, client',
            [Fetch ref (Some defaulted) (negb (Query_isFetching query))])
         ∧ queryCache client' !! ref = Some (Query_fetch (Some defaulted) query).1)
  ∧ (found = None →
     ∃ client' started,
       fetchQueryData now parsedOptions client =
         (Query_promise (hashOf defaulted), client',
          [Fetch (hashOf defaulted) (Some defaulted) started])
       ∧ is_Some (queryCache client' !! hashOf defaulted)
       ∧ (queryCache client !! hashOf defaulted = None → started = true)).
Proof. apply fetchQueryData_cases. Qed.

(** C5: the promise that [prefetchQuery] returns is never rejected: when
    the promise of [fetchQueryData] is fulfilled the value is discarded and
    when it is rejected the error is swallowed, so that it is fulfilled with
    [undefined] as soon as the promise of [fetchQueryData] settles. *)
Theorem prefetchQuery_never_rejects (now : Number) (parsedOptions : Options)
    (client : QueryClient) (fetched : QueryRef → Settled) :
  let inner := (fetchQueryData now parsedOptions client).1.1 in
  let promise := (prefetchQuery now parsedOptions client).1.1 in
  (∀ e, settle fetched promise ≠ Rejected e)
  ∧ (∀ v, settle fetched inner = Fulfilled v →
          settle fetched promise = Fulfilled VUndefined)
  ∧ (∀ e, settle fetched inner = Rejected e →
          settle fetched promise = Fulfilled VUndefined)
  ∧ (∀ v, settle fetched promise = Fulfilled v → v = VUndefined)
  ∧ (settle fetched promise = Pending ↔ settle fetched inner = Pending)
  ∧ (prefetchQuery now parsedOptions client).1.2
    = (fetchQueryData now parsedOptions client).1.2
  ∧ (prefetchQuery now parsedOptions client).2
    = (fetchQueryData now parsedOptions client).2.
Proof.
  intros inner promise. subst inner promise. unfold prefetchQuery.
  destruct (fetchQueryData now parsedOptions client) as [[p c] es]. simpl.
  destruct (settle fetched p) as [v|e|]; simpl; unfold noop;
    repeat split; try done; congruence.
Qed.

Lemma prop_retryDefaulted (parsedOptions : Options) :
  prop "retry" (retryDefaulted parsedOptions) =
    if bool_decide (typeof (prop "retry" parsedOptions) = "undefined")
    then VBool false else prop "retry" parsedOptions.
Proof.
  unfold retryDefaulted. case_bool_decide; [|done].
  unfold prop. by rewrite lookup_insert_eq.
Qed.

Lemma retryDefaulted_own (parsedOptions : Options) :
  typeof (prop "retry" parsedOptions) = "undefined"
  ∨ is_Some (parsedOptions !! "retry") →
  is_Some (retryDefaulted parsedOptions !! "retry").
Proof.
  unfold retryDefaulted. case_bool_decide.
  - intros _. rewrite lookup_insert_eq. by eexists.
  - by intros [?|?].
Qed.

Lemma prop_defaultQueryOptions_own (client : QueryClient) (o : Options) (p : string) :
  is_Some (o !! p) → prop p (defaultQueryOptions client o) = prop p o.
Proof.
  intros [v Hv]. unfold prop, defaultQueryOptions, spread.
  by rewrite (lookup_union_Some_l _ _ _ _ Hv), Hv.
Qed.

Lemma typeof_defined_own (o : Options) (p : string) :
  typeof (prop p o) ≠ "undefined" → is_Some (o !! p).
Proof. unfold prop. destruct (o !! p); [by eexists|done]. Qed.

(** C6, as the code has it: when the parsed options leave [retry]
    undefined, the options that [fetchQueryData] fetches with have
    [retry: false], whatever the client's default options say; a [retry]
    given in the parsed options is passed on unchanged; and every [fetch]
    of [fetchQueryData] and [prefetchQuery] is called with these options. *)
Theorem fetchQueryData_retry_default (now : Number) (parsedOptions : Options)
    (client : QueryClient) :
  let defaulted := defaultQueryOptions client (retryDefaulted parsedOptions) in
  (typeof (prop "retry" parsedOptions) = "undefined" →
   prop "retry" defaulted = VBool false)
  ∧ (typeof (prop "retry" parsedOptions) ≠ "undefined" →
     prop "retry" defaulted = prop "retry" parsedOptions)
  ∧ (∀ ref o started,
       Fetch ref o started ∈ (fetchQueryData now parsedOptions client).2 →
       o = Some defaulted)
  ∧ (prefetchQuery now parsedOptions client).2
    = (fetchQueryData now parsedOptions client).2.
Proof.
  intros defaulted. subst defaulted. split; [|split; [|split]].
  - intros Hun.
    rewrite prop_defaultQueryOptions_own by (apply retryDefaulted_own; by left).
    rewrite prop_retryDefaulted. by rewrite bool_decide_eq_true_2.
  - intros Hdef.
    rewrite prop_defaultQueryOptions_own
      by (apply retryDefaulted_own; right; by apply typeof_defined_own).
    rewrite prop_retryDefaulted. by rewrite bool_decide_eq_false_2.
  - intros ref o started Hin.
    destruct (fetchQueryData_events now parsedOptions client)
      as [Hnil|(ref' & started' & Hev)].
    + rewrite Hnil in Hin. by apply elem_of_nil in Hin.
    + rewrite Hev in Hin. apply list_elem_of_singleton in Hin. congruence.
  - apply prefetchQuery_events.
Qed.

End fetching.

(** Examples. A fresh Query answers from the cache. *)

Lemma fetchQueryData_cached_unless_stale_witness :
  let o : Options := {["staleTime" := VNum (num 1000)]} in
  let query := sampleQuery "k" "cached" 1000 o [] in
  let client := sampleClient {["k" := query]} in
  @fetchQueryData sampleHasher (num 1500)
     (<["queryKey" := VStr "k"]> o) client
  = (Promise_resolve (VStr "cached"), client, []).
Proof.
  intros o query client.
  refine (proj1 (proj2 (proj1 (@fetchQueryData_cached_unless_stale sampleHasher
                                 (num 1500) (<["queryKey" := VStr "k"]> o) client)
                              "k" query _ _ _))).
  - vm_compute. reflexivity.
  - reflexivity.
  - vm_compute. reflexivity.
Defined.

(** A rejected fetch is swallowed by [prefetchQuery]. *)
Lemma prefetchQuery_never_rejects_witness :
  let client := sampleClient ∅ in
  let parsed : Options := {["queryKey" := VStr "k"]} in
  let fetched := λ _ : QueryRef, Rejected (VStr "boom") in
  settle fetched (@prefetchQuery sampleHasher (num 0) parsed client).1.1
  = Fulfilled VUndefined.
Proof.
  intros client parsed fetched.
  refine (proj1 (proj2 (proj2 (@prefetchQuery_never_rejects sampleHasher (num 0)
                                 parsed client fetched)))
                (VStr "boom") _).
  vm_compute. reflexivity.
Defined.

(** The client asks for three retries by default; the call does not mention
    [retry]; the fetch runs with [retry: false]. *)
Lemma fetchQueryData_retry_default_witness :
  let client :=
    mkQueryClient ∅ (mkDefaultOptions (Some {["retry" := VNum (num 3)]}) None) in
  let parsed : Options := {["queryKey" := VStr "k"]} in
  prop "retry" (defaultQueryOptions client (retryDefaulted parsed)) = VBool false.
Proof.
  intros client parsed.
  refine (proj1 (@fetchQueryData_retry_default sampleHasher (num 0) parsed client) _).
  vm_compute. reflexivity.
Defined.

Lemma fetchQueryData_retry_client_default_counterexample :
  let client :=
    mkQueryClient ∅ (mkDefaultOptions (Some {["retry" := VNum (num 3)]}) None) in
  let parsed : Options := {["queryKey" := VStr "k"]} in
  typeof (prop "retry" parsed) = "undefined"
  ∧ prop "retry" (default ∅ (defaults_queries (defaultOptions client))) = VNum (num 3)
  ∧ ∃ o, (@fetchQueryData sampleHasher (num 0) parsed client).2
           = [Fetch "k" (Some o) true]
         ∧ prop "retry" o = VBool false
         ∧ prop "retry" o ≠ VNum (num 3).
Proof.
  intros client parsed. split; [by vm_compute|]. split; [by vm_compute|].
  eexists. split; [vm_compute; reflexivity|]. split; [by vm_compute|].
  vm_compute. discriminate.
Qed.


(** ** The facade: [invalidateQueries] *)

Section invalidation.
Context `{KeyHasher}.

Lemma elem_of_findAll (now : Number) (filters : QueryFilters)
    (cache : QueryCache) (h : QueryRef) :
  h ∈ QueryCache_findAll now filters cache ↔
    ∃ q, cache !! h = Some q ∧ matchQuery now filters q = true.
Proof.
  unfold QueryCache_findAll. rewrite list_elem_of_fmap. split.
  - intros ([h' q] & -> & Hin). apply list_elem_of_filter in Hin as [Hm Hin].
    exists q. split; [|done]. by apply elem_of_map_to_list.
  - intros (q & Hq & Hm). exists (h, q). split; [done|].
    apply list_elem_of_filter. split; [done|]. by apply elem_of_map_to_list.
Qed.

Lemma NoDup_findAll (now : Number) (filters : QueryFilters) (cache : QueryCache) :
  NoDup (QueryCache_findAll now filters cache).
Proof.
  unfold QueryCache_findAll.
  eapply sublist_NoDup; [apply (NoDup_fst_map_to_list cache)|].
  apply fmap_sublist, sublist_filter.
Qed.

Lemma invalidateEach_lookup (refs : list QueryRef) (h : QueryRef) :
  ∀ cache,
    invalidateEach refs cache !! h =
      if decide (h ∈ refs) then Query_invalidate <$> cache !! h else cache !! h.
Proof.
  induction refs as [|r refs IH]; intros cache.
  - rewrite decide_False by apply not_elem_of_nil. done.
  - unfold invalidateEach in *. simpl. rewrite IH.
    destruct (decide (r = h)) as [->|Hne].
    + rewrite lookup_alter_eq. rewrite (decide_True _ _ (list_elem_of_here h refs)).
      destruct (decide (h ∈ refs)); [|done].
      by destruct (cache !! h).
    + rewrite lookup_alter_ne by done.
      destruct (decide (h ∈ refs)) as [Hin|Hnin].
      * by rewrite decide_True by (by right).
      * rewrite decide_False; [done|].
        intros [?|?]%elem_of_cons; congruence.
Qed.

Lemma Query_fetch_isInvalidated (o : option Options) (q : Query) :
  isInvalidated (state (Query_fetch o q).1) = isInvalidated (state q).
Proof. unfold Query_fetch. by destruct (Query_isFetching q). Qed.

Lemma fetchEach_spec (refs : list QueryRef) :
  ∀ client,
    (∀ r, r ∈ refs → is_Some (queryCache client !! r)) →
    ∃ client' events,
      fetchEach refs client = (Query_promise <$> refs, client', events)
      ∧ Forall2 (λ ref e, ∃ started, e = Fetch ref None started) refs events
      ∧ ∀ h, invalidatedAt (queryCache client') h = invalidatedAt (queryCache client) h.
Proof.
  induction refs as [|r refs IH]; intros client Hdom.
  - exists client, []. by repeat split.
  - destruct (Hdom r) as [q Hq]; [by left|].
    simpl. rewrite (fetchAt_present _ _ _ _ Hq).
    set (client1 := with_cache _ client).
    destruct (IH client1) as (client' & events & -> & Hev & Hinv).
    { intros r' Hin. subst client1. simpl.
      rewrite lookup_insert. case_decide; [by eexists|].
      apply Hdom. by right. }
    exists client', (Fetch r None (negb (Query_isFetching q)) :: events).
    split; [done|]. split.
    + constructor; [by eexists|done].
    + intros h. rewrite Hinv. subst client1. unfold invalidatedAt. simpl.
      rewrite lookup_insert. case_decide as Heq; [|done].
      subst h. rewrite Hq. simpl. by rewrite Query_fetch_isInvalidated.
Qed.

Lemma fetch_events_refetched (refs : list QueryRef) (events : list Event) :
  Forall2 (λ ref e, ∃ started, e = Fetch ref None started) refs events →
  flat_map refetched events = refs ∧ flat_map invalidated events = [].
Proof.
  induction 1 as [|ref e refs events [started ->] _ [IHr IHi]]; [done|].
  simpl. by rewrite IHr, IHi.
Qed.





End invalidation.

(** Examples. With filters that say nothing, the active Query is invalidated
    and refetched. *)



(** ** The mounted clients and the focus/online callbacks *)

Lemma filter_ext_in {B} (P Q : B → Prop) `{∀ x, Decision (P x)}
    `{∀ x, Decision (Q x)} (l : list B) :
  (∀ x, x ∈ l → P x ↔ Q x) → filter P l = filter Q l.
Proof.
  induction l as [|y l IH]; intros Hext; [done|].
  pose proof (Hext y (list_elem_of_here y l)) as Hy.
  rewrite !filter_cons.
  rewrite IH by (intros x Hin; apply Hext; by right).
  destruct (decide (P y)), (decide (Q y)); try done; exfalso; tauto.
Qed.

Section arrays.
Context `{EqDecision A}.
Implicit Types (x y : A) (l k : list A).

Lemma indexOf_lower x l : (-1 ≤ indexOf x l)%Z.
Proof.
  induction l as [|y l IH]; simpl; [lia|].
  destruct (decide (y = x)); [lia|]. case_decide; lia.
Qed.

Lemma indexOf_absent x l : x ∉ l ↔ indexOf x l = (-1)%Z.
Proof.
  induction l as [|y l IH]; simpl.
  - split; [done|]. intros _. apply not_elem_of_nil.
  - rewrite not_elem_of_cons.
    destruct (decide (y = x)) as [->|Hne].
    + split; [by intros [? _]|lia].
    + pose proof (indexOf_lower x l). case_decide as Hi.
      * split; [done|]. intros _. split; [done|]. by apply IH.
      * split; [|lia]. intros [_ Hnin]. by apply IH in Hnin.
Qed.

(** The index found is the place of the first occurrence. *)
Lemma indexOf_first x l :
  x ∈ l →
  ∃ pre post, l = pre ++ (x :: post) ∧ (x ∉ pre)
              ∧ indexOf x l = Z.of_nat (length pre).
Proof.
  induction l as [|y l IH]; [by intros ?%elem_of_nil|].
  intros Hin. simpl. destruct (decide (y = x)) as [->|Hne].
  - exists [], l. split; [done|]. split; [apply not_elem_of_nil|done].
  - apply elem_of_cons in Hin as [->|Hin]; [done|].
    destruct (IH Hin) as (pre & post & -> & Hpre & Hi).
    exists (y :: pre), post. split; [done|]. split.
    + apply not_elem_of_cons. split; [done|done].
    + rewrite Hi. case_decide; [lia|]. simpl length. lia.
Qed.

Lemma indexOf_middle x pre post :
  x ∉ pre → indexOf x (pre ++ x :: post) = Z.of_nat (length pre).
Proof.
  induction pre as [|y pre IH]; intros Hpre; simpl.
  - by rewrite decide_True.
  - apply not_elem_of_cons in Hpre as [Hne Hpre].
    rewrite decide_False by done. rewrite IH by done.
    case_decide; lia.
Qed.

Lemma indexOf_app_l x l k : x ∈ l → indexOf x (l ++ k) = indexOf x l.
Proof.
  intros (pre & post & -> & Hpre & Hi)%indexOf_first.
  rewrite Hi, <- app_assoc. simpl. by apply indexOf_middle.
Qed.


Lemma NoDup_indexed l : NoDup (imap pair l).
Proof.
  apply (NoDup_fmap_1 fst).
  assert (fst <$> imap pair l = seq 0 (length l)) as ->; [|apply NoDup_seq].
  rewrite fmap_imap. transitivity (imap (λ j _, id j) l).
  - by apply imap_ext.
  - rewrite imap_seq_0. apply list_fmap_id.
Qed.

Lemma elem_of_indexed l (i : nat) x : (i, x) ∈ imap pair l ↔ l !! i = Some x.
Proof.
  rewrite elem_of_lookup_imap. split.
  - by intros (j & y & [= -> ->] & Hl).
  - intros Hl. by exists i, x.
Qed.

Lemma elem_of_uniq x l : x ∈ uniq l ↔ x ∈ l.
Proof.
  unfold uniq. rewrite list_elem_of_fmap. split.
  - intros ([i y] & -> & Hin). apply list_elem_of_filter in Hin as [_ Hin].
    apply elem_of_indexed in Hin. by eapply list_elem_of_lookup_2.
  - intros Hin. destruct (indexOf_first x l Hin) as (pre & post & Hl & Hpre & Hi).
    exists (length pre, x). split; [done|].
    apply list_elem_of_filter. split; [done|].
    apply elem_of_indexed. rewrite Hl. by apply list_lookup_middle.
Qed.

Lemma NoDup_uniq l : NoDup (uniq l).
Proof.
  unfold uniq. apply NoDup_fmap_2_strong; [|apply NoDup_filter, NoDup_indexed].
  intros [i x] [j y] [Hi _]%list_elem_of_filter [Hj _]%list_elem_of_filter.
  simpl in *. intros ->. f_equal. lia.
Qed.

(** Adding an element that is there already does not change [uniq]. *)
Lemma uniq_snoc_dup x l : x ∈ l → uniq (l ++ [x]) = uniq l.
Proof.
  intros Hin. unfold uniq. rewrite imap_app, filter_app, fmap_app. simpl.
  rewrite filter_cons, filter_nil. rewrite decide_False.
  - rewrite app_nil_r. f_equal. apply filter_ext_in.
    intros [i y] Hy. apply elem_of_indexed in Hy. simpl.
    rewrite indexOf_app_l; [done|]. by eapply list_elem_of_lookup_2.
  - simpl. rewrite indexOf_app_l by done.
    destruct (indexOf_first x l Hin) as (pre & post & -> & _ & ->).
    rewrite length_app. simpl. lia.
Qed.
End arrays.

Lemma mountedClients_mount (this : ClientRef) (bus : Bus) :
  mountedClients (mount this bus) = mountedClients bus ++ [this].
Proof. reflexivity. Qed.

Lemma caches_mount_again (this : ClientRef) (bus : Bus) :
  getQueryCaches (mount this (mount this bus)) = getQueryCaches (mount this bus)
  ∧ getMutationCaches (mount this (mount this bus)) = getMutationCaches (mount this bus).
Proof.
  unfold getQueryCaches, getMutationCaches.
  rewrite (mountedClients_mount this (mount this bus)), !(fmap_app _ _ [this]).
  split; apply uniq_snoc_dup; rewrite mountedClients_mount;
    apply list_elem_of_fmap; exists this; (split; [done|]);
    apply elem_of_app; right; by left.
Qed.

(** Mounting a client that is in the list adds no cache to those that the
    callbacks call, wherever the client is in the list. *)
Lemma caches_mount_mounted (this : ClientRef) (bus : Bus) :
  this ∈ mountedClients bus →
  getMutationCaches (mount this bus) = getMutationCaches bus
  ∧ getQueryCaches (mount this bus) = getQueryCaches bus.
Proof.
  intros Hin. unfold getQueryCaches, getMutationCaches.
  rewrite mountedClients_mount, !(fmap_app _ _ [this]).
  split; apply uniq_snoc_dup; apply list_elem_of_fmap; by exists this.
Qed.

Lemma registrations_mount (this other : ClientRef) (bus : Bus) :
  registrations other (mount this bus) =
    if decide (other = this) then S (registrations this bus)
    else registrations other bus.
Proof.
  unfold registrations. rewrite mountedClients_mount, filter_app, length_app.
  rewrite filter_cons, filter_nil.
  destruct (decide (other = this)) as [->|Hne].
  - rewrite decide_True by done. simpl. lia.
  - rewrite decide_False by (by intros ->). simpl. lia.
Qed.

Lemma registrations_pos (this : ClientRef) (bus : Bus) :
  this ∈ mountedClients bus ↔ 0 < registrations this bus.
Proof.
  unfold registrations. split.
  - intros Hin.
    assert (this ∈ filter (λ client, client = this) (mountedClients bus)) as Hf
      by (by apply list_elem_of_filter).
    destruct (filter _ _); [by apply elem_of_nil in Hf|simpl; lia].
  - intros Hpos.
    destruct (filter (λ client, client = this) (mountedClients bus)) as [|c l] eqn:Hf;
      [simpl in Hpos; lia|].
    assert (c ∈ filter (λ client, client = this) (mountedClients bus))
      as [-> Hin]%list_elem_of_filter by (rewrite Hf; by left).
    done.
Qed.

Lemma unmount_absent (this : ClientRef) (bus : Bus) :
  this ∉ mountedClients bus → unmount this bus = bus.
Proof.
  intros Hnin%indexOf_absent. unfold unmount. rewrite Hnin.
  by rewrite decide_False by lia.
Qed.

(** [unmount] takes the first occurrence of the client out of the list. *)
Lemma unmount_first (this : ClientRef) (bus : Bus) (pre post : list ClientRef) :
  mountedClients bus = pre ++ this :: post → this ∉ pre →
  mountedClients (unmount this bus) = pre ++ post.
Proof.
  intros Hl Hpre. unfold unmount. rewrite Hl, indexOf_middle by done.
  rewrite decide_True by lia. simpl. rewrite Nat2Z.id. apply delete_middle.
Qed.

Lemma registrations_unmount (this other : ClientRef) (bus : Bus) :
  registrations other (unmount this bus) =
    if decide (other = this) then pred (registrations this bus)
    else registrations other bus.
Proof.
  unfold registrations.
  destruct (decide (other = this)) as [->|Ho].
  - destruct (decide (this ∈ mountedClients bus)) as [Hin|Hnin].
    + destruct (indexOf_first this _ Hin) as (pre & post & Hl & Hpre & _).
      rewrite (unmount_first this bus pre post Hl Hpre), Hl.
      rewrite !filter_app, !length_app, filter_cons.
      rewrite decide_True by done. simpl. lia.
    + rewrite unmount_absent by done.
      assert (filter (λ client, client = this) (mountedClients bus) = []) as ->; [|done].
      induction (mountedClients bus) as [|c l IH]; [done|].
      apply not_elem_of_cons in Hnin as [Hne Hnin].
      rewrite filter_cons, decide_False by done. by apply IH.
  - destruct (decide (this ∈ mountedClients bus)) as [Hin|Hnin].
    + destruct (indexOf_first this _ Hin) as (pre & post & Hl & Hpre & _).
      rewrite (unmount_first this bus pre post Hl Hpre), Hl.
      rewrite !filter_app, !length_app, filter_cons.
      by rewrite decide_False by done.
    + by rewrite unmount_absent.
Qed.

Lemma mount_times (this : ClientRef) (n : nat) (bus : Bus) :
  mountedClients (Nat.iter n (mount this) bus) = mountedClients bus ++ replicate n this.
Proof.
  induction n as [|n IH]; simpl.
  - by rewrite app_nil_r.
  - rewrite IH, <- app_assoc. f_equal.
    change [this] with (replicate 1 this). rewrite <- replicate_add.
    by replace (n + 1) with (S n) by lia.
Qed.

Lemma unmount_times (this : ClientRef) (n : nat) :
  ∀ bus l,
    this ∉ l → mountedClients bus = l ++ replicate n this →
    mountedClients (Nat.iter n (unmount this) bus) = l.
Proof.
  induction n as [|n IH]; intros bus l Hl Hbus; simpl in *.
  - by rewrite app_nil_r in Hbus.
  - assert (Nat.iter n (unmount this) (unmount this bus)
            = unmount this (Nat.iter n (unmount this) bus)) as <-.
    { clear. induction n as [|n IHn]; [done|]. simpl. by rewrite IHn. }
    apply IH; [done|]. by apply unmount_first.
Qed.

Lemma registrations_times (this : ClientRef) (bus : Bus) (n m : nat) :
  registrations this (Nat.iter m (unmount this) (Nat.iter n (mount this) bus))
  = registrations this bus + n - m.
Proof.
  induction m as [|m IHm].
  - simpl. induction n as [|n IHn]; simpl; [lia|].
    rewrite registrations_mount, decide_True by done. lia.
  - change (Nat.iter (S m) (unmount this) (Nat.iter n (mount this) bus))
      with (unmount this (Nat.iter m (unmount this) (Nat.iter n (mount this) bus))).
    rewrite registrations_unmount, decide_True by done. rewrite IHm. lia.
Qed.

(** C9, as the code has it: the list of mounted clients counts
    registrations. Each [mount] appends the client once more and registers
    the two callbacks, and mounting a client that is in the list, wherever it
    is, changes nothing that the focus and online callbacks do: they call the
    same caches in the same order. Each [unmount] takes out one registration,
    the first one of the client in the list (the entries before and after it
    stay, in their order, and so do the registered callbacks), and is a no-op
    for a client that has none. After [n] mounts and [m] unmounts the client
    has [n - m] registrations more than before: a client that was not mounted
    is out of the list again after as many [unmount]s as [mount]s, not before. *)
Theorem mount_unmount_counted (this : ClientRef) (bus : Bus) :
  mountedClients (mount this bus) = mountedClients bus ++ [this]
  ∧ focusHandler (mount this bus) = Some onFocus_callback
  ∧ onlineHandler (mount this bus) = Some onOnline_callback
  ∧ (∀ other,
       registrations other (mount this bus) =
         if decide (other = this) then S (registrations this bus)
         else registrations other bus)
  ∧ (this ∈ mountedClients bus →
     getMutationCaches (mount this bus) = getMutationCaches bus
     ∧ getQueryCaches (mount this bus) = getQueryCaches bus
     ∧ ∀ visible,
         onFocus visible (mount this bus) = onFocus visible bus
         ∧ onOnline visible (mount this bus) = onOnline visible bus)
  ∧ (∀ visible,
       onFocus visible (mount this (mount this bus)) = onFocus visible (mount this bus)
       ∧ onOnline visible (mount this (mount this bus))
         = onOnline visible (mount this bus))
  ∧ focusHandler (mount this (mount this bus)) = focusHandler (mount this bus)
  ∧ onlineHandler (mount this (mount this bus)) = onlineHandler (mount this bus)
  ∧ (∀ pre post,
       mountedClients bus = pre ++ this :: post → this ∉ pre →
       unmount this bus = mkBus (pre ++ post) (focusHandler bus) (onlineHandler bus))
  ∧ (this ∈ mountedClients bus →
     ∃ pre post,
       mountedClients bus = pre ++ this :: post ∧ (this ∉ pre)
       ∧ mountedClients (unmount this bus) = pre ++ post)
  ∧ (∀ other,
       registrations other (unmount this bus) =
         if decide (other = this) then pred (registrations this bus)
         else registrations other bus)
  ∧ (this ∉ mountedClients bus → unmount this bus = bus)
  ∧ (this ∈ mountedClients bus ↔ 0 < registrations this bus)
  ∧ (∀ n m,
       registrations this (Nat.iter m (unmount this) (Nat.iter n (mount this) bus))
       = registrations this bus + n - m)
  ∧ (this ∉ mountedClients bus →
     ∀ n m, this ∈ mountedClients
                     (Nat.iter m (unmount this) (Nat.iter n (mount this) bus))
            ↔ m < n)
  ∧ (this ∉ mountedClients bus →
     ∀ n, mountedClients (Nat.iter n (unmount this) (Nat.iter n (mount this) bus))
          = mountedClients bus)
  ∧ (∀ n, this ∈ mountedClients (unmount this (Nat.iter (S (S n)) (mount this) bus))).
Proof.
  split; [done|]. split; [done|]. split; [done|].
  split; [intros other; apply registrations_mount|].
  split.
  { intros Hin. destruct (caches_mount_mounted this bus Hin) as [Hm Hq].
    split; [done|]. split; [done|].
    intros visible. unfold onFocus, onOnline. by rewrite Hq, Hm. }
  split.
  { intros visible. destruct (caches_mount_again this bus) as [Hq Hm].
    unfold onFocus, onOnline. by rewrite Hq, Hm. }
  split; [done|]. split; [done|].
  split.
  { intros pre post Hl Hpre.
    pose proof (unmount_first this bus pre post Hl Hpre) as Hfirst.
    unfold unmount in *. case_decide; [by f_equal|].
    simpl in Hfirst. rewrite Hl in Hfirst.
    apply (f_equal length) in Hfirst. rewrite !length_app in Hfirst.
    simpl in Hfirst. lia. }
  split.
  { intros Hin. destruct (indexOf_first this _ Hin) as (pre & post & Hl & Hpre & _).
    exists pre, post. split; [done|]. split; [done|]. by apply unmount_first. }
  split; [intros other; apply registrations_unmount|].
  split; [apply unmount_absent|].
  split; [apply registrations_pos|].
  split; [apply registrations_times|].
  split.
  { intros Hnin n m. rewrite registrations_pos, registrations_times.
    rewrite registrations_pos in Hnin. lia. }
  split.
  - intros Hnin n. apply unmount_times; [done|]. apply mount_times.
  - intros n. change (unmount this (Nat.iter (S (S n)) (mount this) bus))
      with (Nat.iter 1 (unmount this) (Nat.iter (S (S n)) (mount this) bus)).
    rewrite registrations_pos, registrations_times. lia.
Qed.

Lemma mount_twice_unmount_once_counterexample :
  let this := mkClientRef 1 1 1 in
  let bus := mkBus [] None None in
  this ∈ mountedClients (unmount this (mount this (mount this bus)))
  ∧ mountedClients (mount this (mount this bus)) ≠ mountedClients (mount this bus)
  ∧ unmount this (mount this (mount this bus)) ≠ unmount this (mount this bus).
Proof.
  intros this bus. split; [|split].
  - vm_compute. by left.
  - by vm_compute.
  - by vm_compute.
Qed.

Lemma count_once {B} `{EqDecision B} (x : B) (l : list B) :
  NoDup l → x ∈ l → length (filter (λ y, y = x) l) = 1.
Proof.
  induction 1 as [|y l Hy Hl IH]; [by intros ?%elem_of_nil|].
  rewrite filter_cons. intros [<-|Hin]%elem_of_cons.
  - rewrite decide_True by done. simpl. f_equal.
    assert (filter (λ y, y = x) l = []) as ->; [|done].
    clear -Hy. induction l as [|z l IH]; [done|].
    apply not_elem_of_cons in Hy as [Hne Hy].
    rewrite filter_cons, decide_False by done. by apply IH.
  - rewrite decide_False by (intros ->; done). by apply IH.
Qed.

Lemma elem_of_caches (bus : Bus) (c : nat) :
  (c ∈ getMutationCaches bus ↔
     ∃ client, client ∈ mountedClients bus ∧ client_mutationCache client = c)
  ∧ (c ∈ getQueryCaches bus ↔
       ∃ client, client ∈ mountedClients bus ∧ client_queryCache client = c).
Proof.
  unfold getMutationCaches, getQueryCaches. rewrite !elem_of_uniq, !list_elem_of_fmap.
  split; split; intros (client & ? & ?); by exists client.
Qed.

(** The calls that a signal makes when the page is visible and online: each
    cache once, the mutation caches first. *)
Lemma notified_once_in_order (s : Signal) (ms qs : list nat) :
  NoDup ms → NoDup qs →
  let calls := ((λ cache, notify mutation_cache cache s) <$> ms)
               ++ ((λ cache, notify query_cache cache s) <$> qs) in
  NoDup calls
  ∧ (∀ k c s', notify k c s' ∈ calls ↔
               s' = s ∧ (k = mutation_cache ∧ c ∈ ms ∨ k = query_cache ∧ c ∈ qs))
  ∧ (∀ i j m q s1 s2,
       calls !! i = Some (notify mutation_cache m s1) →
       calls !! j = Some (notify query_cache q s2) → i < j).
Proof.
  intros Hms Hqs calls.
  assert (∀ k c s', notify k c s' ∈ calls ↔
            s' = s ∧ (k = mutation_cache ∧ c ∈ ms ∨ k = query_cache ∧ c ∈ qs))
    as Hmem.
  { intros k c s'. subst calls. rewrite elem_of_app, !list_elem_of_fmap. split.
    - intros [(c' & [= -> -> ->] & Hin)|(c' & [= -> -> ->] & Hin)]; auto.
    - intros (-> & [[-> Hin]|[-> Hin]]); [left|right]; by exists c. }
  split; [|split; [done|]].
  - subst calls. apply NoDup_app. split; [|split].
    + apply NoDup_fmap_2; [|done]. by intros c1 c2 [= ->].
    + intros n (c1 & -> & _)%list_elem_of_fmap (c2 & [=] & _)%list_elem_of_fmap.
    + apply NoDup_fmap_2; [|done]. by intros c1 c2 [= ->].
  - intros i j m q s1 s2 Hi Hj. subst calls.
    set (first := (λ cache, notify mutation_cache cache s) <$> ms) in *.
    destruct (decide (i < length first)) as [Hlt|Hge].
    + destruct (decide (j < length first)) as [Hjlt|Hjge]; [|lia].
      rewrite lookup_app_l in Hj by done.
      apply list_elem_of_lookup_2 in Hj.
      by apply list_elem_of_fmap in Hj as (c & [=] & _).
    + rewrite lookup_app_r in Hi by lia.
      apply list_elem_of_lookup_2 in Hi.
      by apply list_elem_of_fmap in Hi as (c & [=] & _).
Qed.

(** C10: while the page is hidden or offline the focus and online callbacks
    call no cache. Otherwise they call [onFocus()] (resp. [onOnline()]) on
    the caches of the mounted clients and nothing else, once per distinct
    mutation cache and once per distinct query cache however many clients
    share it, every mutation cache before any query cache. *)
Theorem focus_online_notify_each_cache_once (bus : Bus) :
  onFocus false bus = [] ∧ onOnline false bus = []
  ∧ NoDup (onFocus true bus) ∧ NoDup (onOnline true bus)
  ∧ (∀ client, client ∈ mountedClients bus →
       length (filter (λ n, n = notify mutation_cache (client_mutationCache client) focus)
                      (onFocus true bus)) = 1
       ∧ length (filter (λ n, n = notify query_cache (client_queryCache client) focus)
                        (onFocus true bus)) = 1
       ∧ length (filter (λ n, n = notify mutation_cache (client_mutationCache client) online)
                        (onOnline true bus)) = 1
       ∧ length (filter (λ n, n = notify query_cache (client_queryCache client) online)
                        (onOnline true bus)) = 1)
  ∧ (∀ k c s, notify k c s ∈ onFocus true bus ↔
       s = focus
       ∧ ∃ client, client ∈ mountedClients bus
           ∧ (k = mutation_cache ∧ client_mutationCache client = c
              ∨ k = query_cache ∧ client_queryCache client = c))
  ∧ (∀ k c s, notify k c s ∈ onOnline true bus ↔
       s = online
       ∧ ∃ client, client ∈ mountedClients bus
           ∧ (k = mutation_cache ∧ client_mutationCache client = c
              ∨ k = query_cache ∧ client_queryCache client = c))
  ∧ (∀ i j m q s1 s2,
       onFocus true bus !! i = Some (notify mutation_cache m s1) →
       onFocus true bus !! j = Some (notify query_cache q s2) → i < j)
  ∧ (∀ i j m q s1 s2,
       onOnline true bus !! i = Some (notify mutation_cache m s1) →
       onOnline true bus !! j = Some (notify query_cache q s2) → i < j).
Proof.
  destruct (notified_once_in_order focus (getMutationCaches bus) (getQueryCaches bus))
    as (Hnd_f & Hmem_f & Hord_f); [apply NoDup_uniq..|].
  destruct (notified_once_in_order online (getMutationCaches bus) (getQueryCaches bus))
    as (Hnd_o & Hmem_o & Hord_o); [apply NoDup_uniq..|].
  assert (∀ (calls : list Notification) s,
            (∀ k c s', notify k c s' ∈ calls ↔
               s' = s ∧ (k = mutation_cache ∧ c ∈ getMutationCaches bus
                         ∨ k = query_cache ∧ c ∈ getQueryCaches bus)) →
            ∀ k c s', notify k c s' ∈ calls ↔
              s' = s
              ∧ ∃ client, client ∈ mountedClients bus
                  ∧ (k = mutation_cache ∧ client_mutationCache client = c
                     ∨ k = query_cache ∧ client_queryCache client = c)) as Hclients.
  { intros calls s Hmem k c s'. rewrite Hmem.
    destruct (elem_of_caches bus c) as [Hm Hq]. rewrite Hm, Hq. split.
    - intros (-> & [(-> & client & ? & ?)|(-> & client & ? & ?)]);
        (split; [done|]); exists client; auto.
    - intros (-> & client & Hin & [[-> ?]|[-> ?]]); (split; [done|]);
        [left|right]; (split; [done|]); by exists client. }
  split; [done|]. split; [done|]. split; [done|]. split; [done|].
  split; [|split; [by apply Hclients|split; [by apply Hclients|done]]].
  intros client Hin.
  repeat split; apply count_once; try done;
    [apply (Hclients _ focus Hmem_f)|apply (Hclients _ focus Hmem_f)
    |apply (Hclients _ online Hmem_o)|apply (Hclients _ online Hmem_o)];
    (split; [done|]); exists client; auto.
Qed.

(** Examples. A client that was not mounted, mounted twice and unmounted
    twice, is out of the list; of a client that is in the list twice, around
    another one, [unmount] takes out the first entry. *)
Lemma mount_unmount_counted_witness :
  let this := mkClientRef 1 1 1 in
  let other := mkClientRef 2 1 2 in
  let bus := mkBus [other] None None in
  mountedClients (unmount this (unmount this (mount this (mount this bus))))
  = mountedClients bus
  ∧ unmount this (mkBus [this; other; this] None None)
    = mkBus [other; this] None None.
Proof.
  intros this other bus. split.
  - destruct (mount_unmount_counted this bus)
      as (_ & _ & _ & _ & _ & _ & _ & _ & _ & _ & _ & _ & _ & _ & _ & Hout & _).
    refine (Hout _ 2).
    intros [Heq|Hin]%elem_of_cons; [discriminate Heq|].
    by apply elem_of_nil in Hin.
  - destruct (mount_unmount_counted this (mkBus [this; other; this] None None))
      as (_ & _ & _ & _ & _ & _ & _ & _ & Hfirst & _).
    apply (Hfirst [] [other; this] eq_refl (not_elem_of_nil this)).
Defined.

(** Two clients that share a query cache: the cache is called once. *)
Lemma focus_online_notify_each_cache_once_witness :
  let bus := mkBus [mkClientRef 1 7 8; mkClientRef 2 7 9] None None in
  length (filter (λ n, n = notify query_cache 7 focus) (onFocus true bus)) = 1.
Proof.
  intros bus.
  refine (proj1 (proj2 (proj1 (proj2 (proj2 (proj2 (proj2
            (focus_online_notify_each_cache_once bus)))))
          (mkClientRef 1 7 8) _))).
  by left.
Defined.

(** * Further properties *)

(** ** The order on numbers *)

Lemma compare_cont_Eq (m n : positive) :
  PosDef.Pos.compare_cont Eq m n = (Z.pos m ?= Z.pos n)%Z.
Proof. reflexivity. Qed.

Lemma lt_rank (a b : Number) :
  lt a b = true ↔ ∃ x y, rank a = Some x ∧ rank b = Some y ∧ rank_lt x y.
Proof.
  unfold lt, rank_lt.
  destruct a as [sa|sa| |sa ma ea], b as [sb|sb| |sb mb eb]; simpl;
    try (split; [done|by intros (x & y & ? & ? & ?)]);
    try (destruct sa); try (destruct sb); simpl;
    try (split; [intros _; eexists _, _; split; [done|]; split; [done|]; simpl; lia
                |done]);
    try (split; [done|intros (x & y & [= <-] & [= <-] & Hlt); simpl in Hlt; lia]).
  - rewrite compare_cont_Eq.
    destruct (Z.compare_spec ea eb), (Z.compare_spec (Z.pos ma) (Z.pos mb)); simpl;
      (split; [first [done|intros _; eexists _, _; split; [done|]; split; [done|];
                            simpl; lia]
              |first [done|intros (x & y & [= <-] & [= <-] & Hlt); simpl in Hlt; lia]]).
  - rewrite compare_cont_Eq.
    destruct (Z.compare_spec ea eb), (Z.compare_spec (Z.pos ma) (Z.pos mb)); simpl;
      (split; [first [done|intros _; eexists _, _; split; [done|]; split; [done|];
                            simpl; lia]
              |first [done|intros (x & y & [= <-] & [= <-] & Hlt); simpl in Hlt; lia]]).
Qed.

Lemma lt_irrefl (a : Number) : lt a a = false.
Proof.
  apply not_true_is_false. intros (x & y & Hx & Hy & Hlt)%lt_rank.
  rewrite Hx in Hy. injection Hy as <-. unfold rank_lt in Hlt. lia.
Qed.

Lemma lt_trans (a b c : Number) : lt a b = true → lt b c = true → lt a c = true.
Proof.
  intros (x & y & Hx & Hy & Hxy)%lt_rank (y' & z & Hy' & Hz & Hyz)%lt_rank.
  rewrite Hy in Hy'. injection Hy' as <-.
  apply lt_rank. exists x, z. split; [done|]. split; [done|].
  unfold rank_lt in *. lia.
Qed.

(** Going up from [a] does not bring one below something [a] was not below. *)
Lemma lt_raise (a b c : Number) : lt a b = true → lt a c = false → lt b c = false.
Proof.
  intros (x & y & Hx & Hy & Hxy)%lt_rank Hac.
  apply not_true_is_false. intros (y' & z & Hy' & Hz & Hyz)%lt_rank.
  rewrite Hy in Hy'. injection Hy' as <-.
  assert (lt a c = true) as Hac'; [|congruence].
  apply lt_rank. exists x, z. split; [done|]. split; [done|].
  unfold rank_lt in *. lia.
Qed.

(** ** Hydration, further *)

Lemma minus_one_value : num (-1) = S754_finite true 4503599627370496 (-52).
Proof. vm_compute. reflexivity. Qed.

Lemma strict_eq_minus_one (v : Number) : strict_eq v (num (-1)) = true ↔ v = num (-1).
Proof.
  rewrite minus_one_value. split; [|by intros ->].
  destruct v as [s|s| |s m e]; try (by destruct s); [done|].
  destruct s; [|by intros ?]. unfold strict_eq, SFeqb, SFcompare.
  rewrite compare_cont_Eq.
  destruct (Z.compare_spec e (-52)) as [->| |]; [|by intros ?|by intros ?].
  destruct (Z.compare_spec (Z.pos m) 4503599627370496) as [Hm| |];
    [|by intros ?|by intros ?].
  intros _. by injection Hm as ->.
Qed.

Lemma strict_eq_Infinity (v : Number) : strict_eq v Infinity = true ↔ v = Infinity.
Proof.
  split; [|by intros ->].
  by destruct v as [s|[]| |[] m e].
Qed.

Lemma serialize_cases (v : Number) :
  serializePositiveNumber v = if decide (v = Infinity) then num (-1) else v.
Proof.
  unfold serializePositiveNumber. case_decide as Hv.
  - by rewrite (proj2 (strict_eq_Infinity v) Hv).
  - destruct (strict_eq v Infinity) eqn:He; [|done].
    by apply strict_eq_Infinity in He.
Qed.

Lemma deserialize_cases (v : Number) :
  deserializePositiveNumber v = if decide (v = num (-1)) then Infinity else v.
Proof.
  unfold deserializePositiveNumber. case_decide as Hv.
  - by rewrite (proj2 (strict_eq_minus_one v) Hv).
  - destruct (strict_eq v (num (-1))) eqn:He; [|done].
    by apply strict_eq_minus_one in He.
Qed.

(** X1: the only number that the encoding of cache times does not bring back
    is [-1], which comes back as [Infinity]; every other number, NaN and the
    negative ones included, is unchanged by encoding then decoding. Encoding
    an encoded-and-decoded number gives the same code again. *)
Theorem serialize_roundtrip_exact (v : Number) :
  (deserializePositiveNumber (serializePositiveNumber v) = v ↔ v ≠ num (-1))
  ∧ deserializePositiveNumber (serializePositiveNumber (num (-1))) = Infinity
  ∧ (serializePositiveNumber v = num (-1) ↔ v = Infinity ∨ v = num (-1))
  ∧ serializePositiveNumber (deserializePositiveNumber (serializePositiveNumber v))
    = serializePositiveNumber v
  ∧ deserializePositiveNumber (serializePositiveNumber (deserializePositiveNumber v))
    = deserializePositiveNumber v.
Proof.
  assert (Infinity ≠ num (-1)) as Hne by (rewrite minus_one_value; discriminate).
  rewrite !serialize_cases, !deserialize_cases.
  repeat (rewrite ?serialize_cases, ?deserialize_cases; case_decide); subst;
    repeat split; try done; try tauto; try congruence;
    try (intros [?|?]; congruence); try (intros ?; congruence).
Qed.

Lemma dehydrate_queries (client : QueryClient) (opts : option DehydrateOptions) :
  queries (dehydrate client opts) =
    dehydrateQuery
      <$> filter (λ q, default defaultShouldDehydrate (opts ≫= shouldDehydrate) q = true)
                 (QueryCache_getAll (getQueryCache client)).
Proof.
  unfold dehydrate. simpl. rewrite push_each. simpl.
  by destruct opts as [[[p|]]|].
Qed.

(** X2: with a [shouldDehydrate] predicate, [dehydrate] emits the queries
    of the cache that the predicate accepts, whatever their status, and no
    other; each accepted Query once. *)
Theorem dehydrate_shouldDehydrate (client : QueryClient) (p : Query → bool) :
  let emitted := queries (dehydrate client (Some {| shouldDehydrate := Some p |})) in
  emitted = dehydrateQuery <$> filter (λ q, p q = true)
                                      (QueryCache_getAll (getQueryCache client))
  ∧ (∀ dq, dq ∈ emitted ↔
           ∃ h q, queryCache client !! h = Some q ∧ p q = true
                  ∧ dq = dehydrateQuery q)
  ∧ length emitted =
      length (filter (λ hq, p hq.2 = true) (map_to_list (queryCache client)))
  ∧ (length emitted ≤ size (queryCache client))%nat.
Proof.
  intros emitted. subst emitted. rewrite dehydrate_queries. simpl.
  split; [done|]. split; [|split].
  - intros dq. rewrite list_elem_of_fmap. split.
    + intros (q & -> & [Hp [h Hq]%elem_of_getAll]%list_elem_of_filter).
      by exists h, q.
    + intros (h & q & Hq & Hp & ->). exists q. split; [done|].
      apply list_elem_of_filter. split; [done|]. apply elem_of_getAll. by exists h.
  - rewrite length_fmap. unfold QueryCache_getAll, getQueryCache.
    induction (map_to_list (queryCache client)) as [|[h q] l IH]; [done|].
    rewrite fmap_cons, !filter_cons. simpl.
    destruct (decide (p q = true)); simpl; by rewrite IH.
  - rewrite length_fmap. etrans; [apply length_filter|].
    unfold QueryCache_getAll, getQueryCache.
    by rewrite length_fmap, length_map_to_list.
Qed.

Lemma keyed_hashes (P : Query → Prop) `{∀ q, Decision (P q)}
    (l : list (string * Query)) :
  (∀ h q, (h, q) ∈ l → queryHash q = h) →
  queryHash <$> filter P l.*2 = (filter (λ hq, P hq.2) l).*1.
Proof.
  induction l as [|[h q] l IH]; intros Hkeyed; [done|].
  specialize (IH (λ h' q' Hin, Hkeyed h' q' (list_elem_of_further _ _ _ Hin))).
  rewrite fmap_cons, !filter_cons. cbn [snd].
  destruct (decide (P q)); rewrite ?fmap_cons, IH; [|done].
  cbn [fst]. f_equal. apply Hkeyed. by left.
Qed.

Lemma dehydrate_hashes_NoDup (client : QueryClient)
    (opts : option DehydrateOptions) :
  keyed (queryCache client) →
  NoDup (dq_queryHash <$> queries (dehydrate client opts)).
Proof.
  intros Hkeyed. rewrite dehydrate_queries, <- list_fmap_compose.
  change (dq_queryHash ∘ dehydrateQuery) with queryHash.
  unfold QueryCache_getAll, getQueryCache. rewrite keyed_hashes.
  - eapply sublist_NoDup; [apply (NoDup_fst_map_to_list (queryCache client))|].
    apply fmap_sublist, sublist_filter.
  - intros h q Hin. apply Hkeyed. by apply elem_of_map_to_list.
Qed.

(** X3: when the cache files every Query under its own hash, the payload
    that [dehydrate] makes has at most one entry per hash, whatever the
    predicate. *)
Theorem dehydrate_one_entry_per_hash (client : QueryClient)
    (opts : option DehydrateOptions) :
  keyed (queryCache client) →
  NoDup (dq_queryHash <$> queries (dehydrate client opts)).
Proof. apply dehydrate_hashes_NoDup. Qed.

Set Warnings "-clear-no-such-hyp".

Section hydration_further.
Context `{KeyHasher}.

Lemma hydrateQuery_restore (d : Options) (client : QueryClient) (dq : DehydratedQuery) :
  queryCache client !! dq_queryHash dq = None →
  hydrateQuery d client dq =
    with_cache (<[dq_queryHash dq := newQuery (restoreOptions d dq) (dq_state dq)]>
                  (queryCache client)) client.
Proof.
  intros Hq. unfold hydrateQuery, QueryCache_get, getQueryCache. rewrite Hq.
  unfold restoreQuery, QueryCache_restore. fold (restoreOptions d dq).
  unfold restoreOptions at 1. by rewrite hashOf_hydrated.
Qed.

Lemma hydrateQuery_dom (d : Options) (client : QueryClient) (dq : DehydratedQuery) :
  dom (queryCache (hydrateQuery d client dq))
  = dom (queryCache client) ∪ {[dq_queryHash dq]}.
Proof.
  destruct (queryCache client !! dq_queryHash dq) as [q|] eqn:Hq.
  - assert (dq_queryHash dq ∈ dom (queryCache client)) by (apply elem_of_dom; eauto).
    unfold hydrateQuery, QueryCache_get, getQueryCache. rewrite Hq.
    destruct (lt _ _); simpl; [rewrite dom_alter_L|]; set_solver.
  - rewrite hydrateQuery_restore by done. simpl. rewrite dom_insert_L. set_solver.
Qed.

Lemma hydrate_step_dom (d : Options) (qs : list DehydratedQuery) :
  ∀ client,
    dom (queryCache (foldl (hydrateQuery d) client qs))
    = dom (queryCache client) ∪ list_to_set (dq_queryHash <$> qs).
Proof.
  induction qs as [|dq qs IH]; intros client; simpl.
  - set_solver.
  - rewrite IH, hydrateQuery_dom. set_solver.
Qed.

Lemma hydrate_step_defaultOptions (d : Options) (qs : list DehydratedQuery) :
  ∀ client, defaultOptions (foldl (hydrateQuery d) client qs) = defaultOptions client.
Proof.
  induction qs as [|dq qs IH]; intros client; [done|]. simpl. rewrite IH.
  unfold hydrateQuery. destruct (QueryCache_get _ _); [|done]. by destruct (lt _ _).
Qed.

(** X4: [hydrate] takes no Query out of the cache and adds exactly the
    hashes of the payload; a Query whose hash is not in the payload is left as
    it was, and so are the client's default options. *)
Theorem hydrate_keeps_and_adds (client : QueryClient) (u : Unknown)
    (opts : option HydrateOptions) :
  let client' := hydrate client u opts in
  dom (queryCache client) ⊆ dom (queryCache client')
  ∧ (∀ qs, u = UObject (Some qs) →
       dom (queryCache client')
       = dom (queryCache client) ∪ list_to_set (dq_queryHash <$> qs))
  ∧ (∀ h, (∀ qs, u = UObject (Some qs) → h ∉ dq_queryHash <$> qs) →
          queryCache client' !! h = queryCache client !! h)
  ∧ defaultOptions client' = defaultOptions client.
Proof.
  intros client'. subst client'.
  destruct u as [| | | | | |[qs|]];
    try (split; [done|split; [by intros qs' [=]|split; done]]).
  rewrite hydrate_object. simpl. split; [|split; [|split]].
  - rewrite hydrate_step_dom. set_solver.
  - intros qs' [= <-]. apply hydrate_step_dom.
  - intros h Hh. apply hydrate_others. intros dq Hin Heq.
    apply (Hh qs eq_refl). apply list_elem_of_fmap. by exists dq.
  - apply hydrate_step_defaultOptions.
Qed.

Lemma hydrate_restores (d : Options) (qs : list DehydratedQuery)
    (client : QueryClient) (dq : DehydratedQuery) :
  dq ∈ qs → NoDup (dq_queryHash <$> qs) →
  queryCache client !! dq_queryHash dq = None →
  queryCache (foldl (hydrateQuery d) client qs) !! dq_queryHash dq
  = Some (newQuery (restoreOptions d dq) (dq_state dq)).
Proof.
  intros (pre & post & ->)%list_elem_of_split Hnd Hnone.
  rewrite fmap_app, fmap_cons in Hnd.
  apply NoDup_app in Hnd as (_ & Hpre & [Hpost _]%NoDup_cons).
  rewrite foldl_app. simpl. rewrite hydrate_others.
  - rewrite hydrateQuery_restore.
    + simpl. by rewrite lookup_insert_eq.
    + rewrite hydrate_others; [done|]. intros dq' Hin Heq.
      apply (Hpre (dq_queryHash dq')); [apply list_elem_of_fmap; by exists dq'|].
      rewrite Heq. by left.
  - intros dq' Hin Heq. apply Hpost. rewrite <- Heq.
    apply list_elem_of_fmap. by exists dq'.
Qed.

(** Once the cache holds, under the hash of an entry, a Query that is not
    older than the entry, a payload that has no other entry of that hash
    leaves the Query as it is. *)
Lemma hydrate_settled (d : Options) (dq : DehydratedQuery)
    (qs : list DehydratedQuery) :
  ∀ client q1,
    (∀ dq', dq' ∈ qs → dq_queryHash dq' = dq_queryHash dq → dq' = dq) →
    queryCache client !! dq_queryHash dq = Some q1 →
    lt (updatedAt (state q1)) (updatedAt (dq_state dq)) = false →
    queryCache (foldl (hydrateQuery d) client qs) !! dq_queryHash dq = Some q1.
Proof.
  induction qs as [|dq' qs IH]; intros client q1 Hsole Hq1 Hlt; [done|].
  simpl. apply IH; [intros dq'' Hin; apply Hsole; by right| |done].
  destruct (decide (dq_queryHash dq' = dq_queryHash dq)) as [Heq|Hne].
  - rewrite (Hsole dq') by (by left || done).
    rewrite (hydrateQuery_present d client dq q1 Hq1).
    by rewrite <- lt_gt, Hlt.
  - by rewrite hydrateQuery_other.
Qed.

(** What [hydrate] leaves under the hash of a payload entry, when no other
    entry of the payload has that hash; the entries of other hashes may
    repeat. *)
Lemma hydrate_sole (d : Options) (dq : DehydratedQuery) (qs : list DehydratedQuery) :
  ∀ client,
    dq ∈ qs →
    (∀ dq', dq' ∈ qs → dq_queryHash dq' = dq_queryHash dq → dq' = dq) →
    queryCache (foldl (hydrateQuery d) client qs) !! dq_queryHash dq
    = Some match queryCache client !! dq_queryHash dq with
           | Some q => if gt (updatedAt (dq_state dq)) (updatedAt (state q))
                       then Query_setState (dq_state dq) q else q
           | None => newQuery (restoreOptions d dq) (dq_state dq)
           end.
Proof.
  induction qs as [|dq' qs IH]; intros client Hin Hsole;
    [by apply elem_of_nil in Hin|].
  assert (∀ dq'', dq'' ∈ qs → dq_queryHash dq'' = dq_queryHash dq → dq'' = dq)
    as Hsole' by (intros dq'' Hin'; apply Hsole; by right).
  simpl. destruct (decide (dq_queryHash dq' = dq_queryHash dq)) as [Heq|Hne].
  - rewrite (Hsole dq') by (by left || done).
    apply hydrate_settled; [done|..].
    + destruct (queryCache client !! dq_queryHash dq) as [q|] eqn:Hq.
      * by apply hydrateQuery_present.
      * rewrite hydrateQuery_restore by done. simpl. by rewrite lookup_insert_eq.
    + destruct (queryCache client !! dq_queryHash dq) as [q|] eqn:Hq.
      * rewrite <- lt_gt.
        destruct (lt (updatedAt (state q)) (updatedAt (dq_state dq))) eqn:Hlt;
          [apply lt_irrefl|done].
      * apply lt_irrefl.
  - apply elem_of_cons in Hin as [->|Hin]; [done|].
    rewrite IH by done. by rewrite hydrateQuery_other.
Qed.

(** X5: a dehydrated query whose hash the cache does not hold, no other
    entry of the payload having its hash (entries of other hashes may repeat),
    is restored as a Query with the dehydrated key, hash and state, the
    decoded cache time and no observer; its options are the caller's default
    options, over which [queryKey], [queryHash] and [cacheTime] of the entry
    prevail. *)
Theorem hydrate_restores_absent (client : QueryClient) (qs : list DehydratedQuery)
    (opts : option HydrateOptions) (dq : DehydratedQuery) :
  dq ∈ qs →
  (∀ dq', dq' ∈ qs → dq_queryHash dq' = dq_queryHash dq → dq' = dq) →
  queryCache client !! dq_queryHash dq = None →
  let d := default ∅ (opts ≫= hydrate_defaultOptions) in
  ∃ q, queryCache (hydrate client (UObject (Some qs)) opts) !! dq_queryHash dq = Some q
       ∧ queryKey q = dq_queryKey dq
       ∧ queryHash q = dq_queryHash dq
       ∧ state q = dq_state dq
       ∧ cacheTime q = deserializePositiveNumber (config_cacheTime (dq_config dq))
       ∧ observers q = []
       ∧ prop "queryKey" (options q) = dq_queryKey dq
       ∧ prop "queryHash" (options q) = VStr (dq_queryHash dq)
       ∧ prop "cacheTime" (options q)
         = VNum (deserializePositiveNumber (config_cacheTime (dq_config dq)))
       ∧ ∀ p, p ≠ "queryKey" → p ≠ "queryHash" → p ≠ "cacheTime" →
              options q !! p = d !! p.
Proof.
  intros Hin Hsole Hnone d. rewrite hydrate_object. simpl. fold d.
  rewrite (hydrate_sole d dq qs client Hin Hsole), Hnone.
  eexists. split; [done|]. unfold newQuery, restoreOptions. simpl.
  rewrite hashOf_hydrated, cacheTimeOf_hydrated. unfold prop.
  rewrite lookup_insert_eq.
  rewrite (lookup_insert_ne _ "cacheTime" "queryHash") by done.
  rewrite lookup_insert_eq.
  rewrite !(lookup_insert_ne _ _ "queryKey") by done.
  rewrite lookup_insert_eq.
  repeat split. intros p H1 H2 H3. by rewrite !lookup_insert_ne by done.
Qed.

End hydration_further.

Section hydration_order.
Context `{KeyHasher}.

Lemma hydrate_step_newer (d : Options) (h : string) (q : Query)
    (all qs : list DehydratedQuery) :
  ∀ client q1,
    (∀ dq, dq ∈ qs → dq ∈ all) →
    queryCache client !! h = Some q1 →
    Query_setState (state q) q1 = q →
    (state q1 = state q
     ∨ lt (updatedAt (state q)) (updatedAt (state q1)) = true
       ∧ ∃ dq, dq ∈ all ∧ dq_queryHash dq = h ∧ state q1 = dq_state dq) →
    ∃ q', queryCache (foldl (hydrateQuery d) client qs) !! h = Some q'
          ∧ Query_setState (state q) q' = q
          ∧ (state q' = state q
             ∨ lt (updatedAt (state q)) (updatedAt (state q')) = true
               ∧ ∃ dq, dq ∈ all ∧ dq_queryHash dq = h ∧ state q' = dq_state dq).
Proof.
  induction qs as [|dq qs IH]; intros client q1 Hall Hq1 Hsame Hstate.
  - by exists q1.
  - simpl. assert (∀ dq', dq' ∈ qs → dq' ∈ all) as Hall'
      by (intros dq' Hin; apply Hall; by right).
    destruct (decide (dq_queryHash dq = h)) as [<-|Hne].
    + pose proof (hydrateQuery_present d client dq q1 Hq1) as Hstep.
      rewrite <- lt_gt in Hstep.
      destruct (lt (updatedAt (state q1)) (updatedAt (dq_state dq))) eqn:Hlt.
      * apply (IH _ _ Hall' Hstep); [by destruct q1|]. right. split.
        -- destruct Hstate as [Heq|[Hlt0 _]]; [by rewrite <- Heq|].
           by eapply lt_trans.
        -- exists dq. split; [apply Hall; by left|done].
      * by apply (IH _ _ Hall' Hstep).
    + apply (IH _ q1 Hall'); [|done|done]. by rewrite hydrateQuery_other.
Qed.

(** X6: through [hydrate], a Query that the cache holds keeps its key, its
    hash, its cache time, its options and its observers; its state is either
    what it was or the state of an entry of the payload with its hash and a
    strictly greater [updatedAt]: [updatedAt] never goes down. *)
Theorem hydrate_never_older (client : QueryClient) (u : Unknown)
    (opts : option HydrateOptions) (h : string) (q : Query) :
  queryCache client !! h = Some q →
  ∃ q', queryCache (hydrate client u opts) !! h = Some q'
        ∧ Query_setState (state q) q' = q
        ∧ lt (updatedAt (state q')) (updatedAt (state q)) = false
        ∧ (state q' = state q
           ∨ gt (updatedAt (state q')) (updatedAt (state q)) = true
             ∧ ∃ qs dq, u = UObject (Some qs) ∧ dq ∈ qs
                        ∧ dq_queryHash dq = h ∧ state q' = dq_state dq).
Proof.
  intros Hq.
  assert (Query_setState (state q) q = q) as Hself by (by destruct q).
  destruct u as [| | | | | |[qs|]];
    try (exists q; split; [done|]; split; [done|]; split; [apply lt_irrefl|by left]).
  rewrite hydrate_object. simpl.
  destruct (hydrate_step_newer (default ∅ (opts ≫= hydrate_defaultOptions))
              h q qs qs client q) as (q' & Hq' & Hsame & Hstate);
    [done|done|done|by left|].
  exists q'. split; [done|]. split; [done|].
  destruct Hstate as [Heq|(Hlt & dq & Hin & Hh & Hdq)].
  - split; [rewrite Heq; apply lt_irrefl|by left].
  - split.
    + apply not_true_is_false. intros Hback.
      pose proof (lt_trans _ _ _ Hlt Hback) as Hcycle.
      by rewrite lt_irrefl in Hcycle.
    + right. split; [by rewrite <- lt_gt|]. by exists qs, dq.
Qed.

Lemma absorbs_fix (d : Options) (client : QueryClient) (dq : DehydratedQuery) :
  absorbs client dq → hydrateQuery d client dq = client.
Proof.
  intros (q & Hq & Hlt). unfold hydrateQuery, QueryCache_get, getQueryCache.
  by rewrite Hq, Hlt.
Qed.

Lemma absorbs_after (d : Options) (client : QueryClient) (dq : DehydratedQuery) :
  absorbs (hydrateQuery d client dq) dq.
Proof.
  destruct (queryCache client !! dq_queryHash dq) as [q|] eqn:Hq.
  - eexists. split; [by apply hydrateQuery_present|]. rewrite <- lt_gt.
    destruct (lt (updatedAt (state q)) (updatedAt (dq_state dq))) eqn:Hlt; [|done].
    apply lt_irrefl.
  - eexists. rewrite hydrateQuery_restore by done. simpl. rewrite lookup_insert_eq.
    split; [done|]. apply lt_irrefl.
Qed.

Lemma absorbs_step (d : Options) (client : QueryClient) (dq dq' : DehydratedQuery) :
  absorbs client dq → absorbs (hydrateQuery d client dq') dq.
Proof.
  intros (q & Hq & Hlt).
  destruct (decide (dq_queryHash dq' = dq_queryHash dq)) as [Heq|Hne].
  - rewrite <- Heq in Hq. eexists.
    rewrite <- Heq. split; [by apply hydrateQuery_present|]. rewrite <- lt_gt.
    destruct (lt (updatedAt (state q)) (updatedAt (dq_state dq'))) eqn:Hup; [|done].
    simpl. by eapply lt_raise.
  - exists q. by rewrite hydrateQuery_other.
Qed.

Lemma absorbs_all (d : Options) (qs : list DehydratedQuery) :
  ∀ client dq,
    absorbs client dq ∨ dq ∈ qs → absorbs (foldl (hydrateQuery d) client qs) dq.
Proof.
  induction qs as [|dq' qs IH]; intros client dq Hdq; simpl.
  - destruct Hdq as [?|Hin]; [done|]. by apply elem_of_nil in Hin.
  - apply IH. destruct Hdq as [Habs|[->|Hin]%elem_of_cons].
    + left. by apply absorbs_step.
    + left. apply absorbs_after.
    + by right.
Qed.

Lemma absorbed_fix (d : Options) (qs : list DehydratedQuery) (client : QueryClient) :
  (∀ dq, dq ∈ qs → absorbs client dq) → foldl (hydrateQuery d) client qs = client.
Proof.
  induction qs as [|dq qs IH]; intros Habs; [done|]. simpl.
  rewrite absorbs_fix by (apply Habs; by left).
  apply IH. intros dq' Hin. apply Habs. by right.
Qed.

(** X7: hydrating the same payload a second time changes nothing: whatever
    the payload, entries that repeat a hash included. *)
Theorem hydrate_twice (client : QueryClient) (u : Unknown)
    (opts : option HydrateOptions) :
  hydrate (hydrate client u opts) u opts = hydrate client u opts.
Proof.
  destruct u as [| | | | | |[qs|]]; try done.
  rewrite !hydrate_object. simpl. apply absorbed_fix.
  intros dq Hin. apply absorbs_all. by right.
Qed.

End hydration_order.

Section hydration_roundtrip.
Context `{KeyHasher}.

Lemma serialize_deserialize_serialize (v : Number) :
  serializePositiveNumber (deserializePositiveNumber (serializePositiveNumber v))
  = serializePositiveNumber v.
Proof.
  assert (Infinity ≠ num (-1)) as Hne by (rewrite minus_one_value; discriminate).
  rewrite (serialize_cases v). case_decide.
  - rewrite deserialize_cases, decide_True by done. by rewrite serialize_cases, decide_True.
  - rewrite deserialize_cases. case_decide as Hv.
    + by rewrite serialize_cases, decide_True.
    + by rewrite serialize_cases, decide_False.
Qed.

Lemma restoreOptions_hash (d : Options) (dq : DehydratedQuery) :
  hashOf (restoreOptions d dq) = dq_queryHash dq.
Proof. apply hashOf_hydrated. Qed.

Lemma restoreOptions_cacheTime (d : Options) (dq : DehydratedQuery) :
  cacheTimeOf (restoreOptions d dq)
  = deserializePositiveNumber (config_cacheTime (dq_config dq)).
Proof. apply cacheTimeOf_hydrated. Qed.

Lemma restoreOptions_key (d : Options) (dq : DehydratedQuery) :
  prop "queryKey" (restoreOptions d dq) = dq_queryKey dq.
Proof.
  unfold restoreOptions, prop.
  rewrite !(lookup_insert_ne _ _ "queryKey") by done. by rewrite lookup_insert_eq.
Qed.

Lemma dehydrate_restored (d : Options) (q : Query) :
  dehydrateQuery (newQuery (restoreOptions d (dehydrateQuery q))
                           (dq_state (dehydrateQuery q)))
  = dehydrateQuery q.
Proof.
  unfold newQuery.
  rewrite restoreOptions_hash, restoreOptions_cacheTime, restoreOptions_key.
  unfold dehydrateQuery. simpl. by rewrite serialize_deserialize_serialize.
Qed.

Lemma hydrate_fresh_lookup (d : Options) (qs : list DehydratedQuery)
    (defaults : DefaultOptions) (h : string) (q' : Query) :
  NoDup (dq_queryHash <$> qs) →
  queryCache (foldl (hydrateQuery d) (mkQueryClient ∅ defaults) qs) !! h = Some q' ↔
    ∃ dq, dq ∈ qs ∧ dq_queryHash dq = h
          ∧ q' = newQuery (restoreOptions d dq) (dq_state dq).
Proof.
  intros Hnd. split.
  - intros Hq'.
    assert (h ∈ dom (queryCache (foldl (hydrateQuery d) (mkQueryClient ∅ defaults) qs)))
      as Hdom by (apply elem_of_dom; eauto).
    rewrite hydrate_step_dom in Hdom. cbn [queryCache] in Hdom.
    rewrite dom_empty_L in Hdom.
    apply elem_of_union in Hdom as [Hdom|Hdom]; [by apply not_elem_of_empty in Hdom|].
    apply elem_of_list_to_set, list_elem_of_fmap in Hdom as (dq & -> & Hin).
    exists dq. split; [done|]. split; [done|].
    rewrite (hydrate_restores d qs _ dq Hin Hnd) in Hq' by done. congruence.
  - intros (dq & Hin & <- & ->). by apply hydrate_restores.
Qed.

Lemma hydrate_payload (client : QueryClient) (s : DehydratedState)
    (opts : option HydrateOptions) :
  hydrate client (payload s) opts
  = foldl (hydrateQuery (default ∅ (opts ≫= hydrate_defaultOptions))) client (queries s).
Proof. reflexivity. Qed.

(** X8: dehydrate a client whose cache files every Query under its own
    hash, hydrate a fresh client with the payload, dehydrate that client: the
    payload is the same, up to the order of its entries. The fresh client holds
    exactly the successful queries of the first, with their states, and files
    them under their hashes too. *)
Theorem dehydrate_hydrate_dehydrate (A : QueryClient) (defaults : DefaultOptions)
    (opts : option HydrateOptions) :
  keyed (queryCache A) →
  let B := hydrate (mkQueryClient ∅ defaults) (payload (dehydrate A None)) opts in
  queries (dehydrate B None) ≡ₚ queries (dehydrate A None)
  ∧ keyed (queryCache B)
  ∧ (∀ h q, queryCache A !! h = Some q → status (state q) = success →
            ∃ q', queryCache B !! h = Some q' ∧ state q' = state q
                  ∧ queryKey q' = queryKey q ∧ queryHash q' = queryHash q)
  ∧ (∀ h q', queryCache B !! h = Some q' →
             ∃ q, queryCache A !! h = Some q ∧ status (state q) = success
                  ∧ state q' = state q).
Proof.
  intros HA B. subst B. rewrite hydrate_payload.
  set (d := default ∅ (opts ≫= hydrate_defaultOptions)).
  set (P := queries (dehydrate A None)).
  pose proof (dehydrate_hashes_NoDup A None HA) as Hnd. fold P in Hnd.
  set (B := foldl (hydrateQuery d) (mkQueryClient ∅ defaults) P).
  assert (∀ h q', queryCache B !! h = Some q' ↔
            ∃ q, queryCache A !! h = Some q ∧ status (state q) = success
                 ∧ q' = newQuery (restoreOptions d (dehydrateQuery q)) (state q))
    as HB.
  { intros h q'. subst B. rewrite hydrate_fresh_lookup by done. split.
    - intros (dq & Hin & <- & ->).
      apply elem_of_dehydrate_default in Hin as (h & q & Hq & Hs & ->).
      exists q. simpl. by rewrite (HA _ _ Hq).
    - intros (q & Hq & Hs & ->). exists (dehydrateQuery q).
      split; [apply elem_of_dehydrate_default; by exists h, q|].
      split; [simpl; by apply HA|done]. }
  assert (keyed (queryCache B)) as HkB.
  { intros h q' (q & Hq & _ & ->)%HB. simpl.
    rewrite restoreOptions_hash. simpl. by apply HA. }
  split; [|split; [done|split]].
  - apply NoDup_Permutation.
    + apply (NoDup_fmap_1 dq_queryHash). by apply dehydrate_hashes_NoDup.
    + by apply (NoDup_fmap_1 dq_queryHash).
    + intros dq. subst P. rewrite !elem_of_dehydrate_default. split.
      * intros (h & q' & (q & Hq & Hs & ->)%HB & _ & ->).
        exists h, q. split; [done|]. split; [done|].
        apply (dehydrate_restored d q).
      * intros (h & q & Hq & Hs & ->).
        exists h, (newQuery (restoreOptions d (dehydrateQuery q)) (state q)).
        split; [apply HB; by exists q|]. split; [done|].
        symmetry. apply (dehydrate_restored d q).
  - intros h q Hq Hs. eexists. split; [apply HB; by exists q|].
    simpl. by rewrite restoreOptions_hash, restoreOptions_key.
  - intros h q' (q & Hq & Hs & ->)%HB. by exists q.
Qed.

(** X9: after [hydrate], [getQueryData] and [getQueryState] for the key of
    a payload entry (its hash being the hash of its key, and no other entry of
    the payload having that hash; entries of other hashes may repeat) give the
    dehydrated data and state when the cache did not hold the Query or held an
    older one, and what the cache held otherwise. *)
Theorem getQueryData_after_hydrate (client : QueryClient)
    (qs : list DehydratedQuery) (opts : option HydrateOptions) (dq : DehydratedQuery) :
  dq ∈ qs →
  (∀ dq', dq' ∈ qs → dq_queryHash dq' = dq_queryHash dq → dq' = dq) →
  hashQueryKey (dq_queryKey dq) = dq_queryHash dq →
  let client' := hydrate client (UObject (Some qs)) opts in
  let answer :=
    match queryCache client !! dq_queryHash dq with
    | Some q => if gt (updatedAt (dq_state dq)) (updatedAt (state q))
                then dq_state dq else state q
    | None => dq_state dq
    end in
  getQueryState (dq_queryKey dq) client' = Some answer
  ∧ getQueryData (dq_queryKey dq) client' = data answer.
Proof.
  intros Hin Hsole Hhash client' answer. subst client' answer.
  unfold getQueryState, getQueryData, QueryCache_find.
  rewrite Hhash, hydrate_object. simpl.
  rewrite (hydrate_sole _ dq qs client Hin Hsole).
  destruct (queryCache client !! dq_queryHash dq) as [q|] eqn:Hq; [|done].
  simpl. by destruct (gt _ _).
Qed.

End hydration_roundtrip.

(** ** The facade, further *)

(** X10: in the options that a fetch runs with, a property that the call's
    options carry wins over the client's default, also when its value is
    [undefined]; a property that they do not carry comes from the client's
    default query options. Merging twice is merging once, and without default
    query options the call's options come out unchanged. *)
Theorem defaultQueryOptions_merge (client : QueryClient) (o : Options) :
  (∀ p v, o !! p = Some v → defaultQueryOptions client o !! p = Some v)
  ∧ (∀ p, o !! p = None →
          defaultQueryOptions client o !! p
          = default ∅ (defaults_queries (defaultOptions client)) !! p)
  ∧ (∀ p, o !! p = Some VUndefined → prop p (defaultQueryOptions client o) = VUndefined)
  ∧ defaultQueryOptions client (defaultQueryOptions client o)
    = defaultQueryOptions client o
  ∧ (defaults_queries (defaultOptions client) = None →
     defaultQueryOptions client o = o).
Proof.
  unfold defaultQueryOptions, spread, prop. split; [|split; [|split; [|split]]].
  - intros p v Hp. by apply lookup_union_Some_l.
  - intros p Hp. by rewrite lookup_union_r.
  - intros p Hp. by rewrite (lookup_union_Some_l _ _ _ _ Hp).
  - by rewrite <- (assoc_L (∪)), (idemp_L (∪)).
  - intros ->. simpl. apply (right_id_L ∅ (∪)).
Qed.

Section fetching_further.
Context `{KeyHasher}.

Lemma fetchAt_frame (ref : QueryRef) (o : option Options) (client : QueryClient) :
  is_Some (queryCache client !! ref) →
  ∃ q, (fetchAt ref o client).1.2
       = with_cache (<[ref := q]> (queryCache client)) client.
Proof.
  intros [q Hq]. rewrite (fetchAt_present _ _ _ _ Hq). by eexists.
Qed.

(** X11: [fetchQueryData] and [prefetchQuery] touch one Query at most, the
    one of the key (found by the hash of the key, or built under the hash of
    the options): every other Query of the cache is left as it was, none is
    removed, and the client's default options are not changed. *)
Theorem fetchQueryData_touches_one (now : Number) (parsedOptions : Options)
    (client : QueryClient) :
  let defaulted := defaultQueryOptions client (retryDefaulted parsedOptions) in
  let ref :=
    match QueryCache_find (prop "queryKey" defaulted) (queryCache client) with
    | Some (ref, _) => ref
    | None => hashOf defaulted
    end in
  let client' := (fetchQueryData now parsedOptions client).1.2 in
  (∀ h, h ≠ ref → queryCache client' !! h = queryCache client !! h)
  ∧ dom (queryCache client) ⊆ dom (queryCache client')
  ∧ dom (queryCache client') ⊆ dom (queryCache client) ∪ {[ref]}
  ∧ defaultOptions client' = defaultOptions client
  ∧ (prefetchQuery now parsedOptions client).1.2 = client'.
Proof.
  intros defaulted ref client'.
  assert ((prefetchQuery now parsedOptions client).1.2 = client') as Hpre.
  { subst client'. unfold prefetchQuery.
    by destruct (fetchQueryData now parsedOptions client) as [[p c] es]. }
  assert (client' = client
          ∨ ∃ q, client' = with_cache (<[ref := q]> (queryCache client)) client)
    as [->|[q ->]].
  { subst client' ref. unfold fetchQueryData. fold defaulted.
    destruct (QueryCache_find (prop "queryKey" defaulted) (queryCache client))
      as [[r query]|] eqn:Hfound.
    - destruct (negb _); [by left|]. right.
      apply fetchAt_frame. apply find_Some in Hfound. by eexists.
    - right. destruct (buildQuery_present defaulted client) as (q & -> & _).
      destruct (fetchAt_frame (hashOf defaulted) (Some defaulted)
                  (with_cache (<[hashOf defaulted := q]> (queryCache client)) client))
        as [q' ->]; [simpl; rewrite lookup_insert_eq; by eexists|].
      exists q'. simpl. by rewrite insert_insert_eq. }
  - repeat split; try done. set_solver.
  - simpl. repeat split; try done.
    + intros h Hne. by rewrite lookup_insert_ne.
    + rewrite dom_insert_L. set_solver.
    + rewrite dom_insert_L. set_solver.
Qed.

End fetching_further.

Lemma settle_all_cases (rs : list Settled) :
  ∀ acc,
    match settle_all rs acc with
    | Rejected e => Rejected e ∈ rs
    | Pending => Pending ∈ rs ∧ ∀ e, Rejected e ∉ rs
    | Fulfilled v => (∀ r, r ∈ rs → ∃ w, r = Fulfilled w)
                     ∧ ∃ vs, v = VArr (acc ++ vs) ∧ rs = Fulfilled <$> vs
    end.
Proof.
  induction rs as [|[w|e|] rs IH]; intros acc; simpl.
  - split; [by intros r ?%elem_of_nil|]. exists []. by rewrite app_nil_r.
  - specialize (IH (acc ++ [w])). destruct (settle_all rs (acc ++ [w])) as [v|e|].
    + destruct IH as (Hall & vs & -> & ->). split.
      * intros r [->|Hin]%elem_of_cons; [by eexists|by apply Hall].
      * exists (w :: vs). by rewrite <- app_assoc.
    + by right.
    + destruct IH as [Hp Hr]. split; [by right|].
      intros e [?|?]%elem_of_cons; [done|by eapply Hr].
  - by left.
  - specialize (IH acc). destruct (settle_all rs acc) as [v|e|].
    + destruct IH as (Hall & _). split; [by left|].
      intros e [?|Hin]%elem_of_cons; [done|]. by destruct (Hall _ Hin).
    + by right.
    + destruct IH as [Hp Hr]. split; [by left|].
      intros e [?|?]%elem_of_cons; [done|by eapply Hr].
Qed.

Lemma settle_fetches (fetched : QueryRef → Settled) (refs : list QueryRef) :
  map (settle fetched) (Query_promise <$> refs) = fetched <$> refs.
Proof. induction refs as [|r refs IH]; [done|]. simpl. by f_equal. Qed.

Section refetching.
Context `{KeyHasher}.

Lemma fetchEach_frame (refs : list QueryRef) :
  ∀ client,
    (∀ r, r ∈ refs → is_Some (queryCache client !! r)) →
    (∀ h, h ∉ refs →
          queryCache (fetchEach refs client).1.2 !! h = queryCache client !! h)
    ∧ dom (queryCache (fetchEach refs client).1.2) = dom (queryCache client)
    ∧ defaultOptions (fetchEach refs client).1.2 = defaultOptions client.
Proof.
  induction refs as [|r refs IH]; intros client Hdom; [done|].
  destruct (Hdom r) as [q Hq]; [by left|].
  simpl. rewrite (fetchAt_present _ _ _ _ Hq).
  set (client1 := with_cache _ client).
  destruct (IH client1) as (Hframe & Hd & Hdef).
  { intros r' Hin. subst client1. simpl.
    rewrite lookup_insert. case_decide; [by eexists|]. apply Hdom. by right. }
  destruct (fetchEach refs client1) as [[ps c] es]. simpl in *.
  split; [|split].
  - intros h [Hne Hnin]%not_elem_of_cons. rewrite Hframe by done.
    subst client1. simpl. by rewrite lookup_insert_ne.
  - rewrite Hd. subst client1. simpl. rewrite dom_insert_L.
    assert (r ∈ dom (queryCache client)) by (apply elem_of_dom; eauto). set_solver.
  - by rewrite Hdef.
Qed.

Lemma refetchQueries_shape (now : Number) (filters : QueryFilters)
    (opts : option RefetchOptions) (client : QueryClient) :
  let refs := QueryCache_findAll now filters (queryCache client) in
  ∃ events,
    refetchQueries now filters opts client =
      (let promise := Promise_then (Promise_all (Query_promise <$> refs)) noop in
       if negb (default false (opts ≫= throwOnError))
       then Promise_catch promise noop else promise,
       (fetchEach refs client).1.2, [Batch events])
    ∧ Forall2 (λ ref e, ∃ started, e = Fetch ref None started) refs events.
Proof.
  intros refs. unfold refetchQueries. fold refs.
  destruct (fetchEach_spec refs client) as (client' & events & Heq & Hev & _).
  { intros r [q [Hq _]]%elem_of_findAll. by eexists. }
  rewrite Heq. by exists events.
Qed.

(** X12: [refetchQueries] runs one batch in which it calls [fetch()],
    without options, once on each Query that matches the filters and on no
    other; the queries that do not match are left as they were and no Query is
    added or removed. *)
Theorem refetchQueries_fetches_matching (now : Number) (filters : QueryFilters)
    (opts : option RefetchOptions) (client : QueryClient) :
  let refs := QueryCache_findAll now filters (queryCache client) in
  ∃ promise client' events,
    refetchQueries now filters opts client = (promise, client', [Batch events])
    ∧ Forall2 (λ ref e, ∃ started, e = Fetch ref None started) refs events
    ∧ flat_map refetched events = refs
    ∧ flat_map invalidated events = []
    ∧ NoDup refs
    ∧ (∀ h, h ∈ refs ↔ ∃ q, queryCache client !! h = Some q
                            ∧ matchQuery now filters q = true)
    ∧ (∀ h, h ∉ refs → queryCache client' !! h = queryCache client !! h)
    ∧ dom (queryCache client') = dom (queryCache client)
    ∧ defaultOptions client' = defaultOptions client.
Proof.
  intros refs.
  destruct (refetchQueries_shape now filters opts client) as (events & -> & Hev).
  fold refs.
  destruct (fetchEach_frame refs client) as (Hframe & Hdom & Hdef).
  { intros r [q [Hq _]]%elem_of_findAll. by eexists. }
  destruct (fetch_events_refetched refs events Hev) as [Hre Hin].
  eexists _, _, events. split; [done|].
  repeat split; try done.
  - apply NoDup_findAll.
  - by intros ?%elem_of_findAll.
  - by intros ?%elem_of_findAll.
Qed.

(** X13: the promise of [refetchQueries]: without [throwOnError] it is
    never rejected, and is fulfilled with [undefined] as soon as one fetch is
    rejected or all are fulfilled; with [throwOnError] it is rejected if and
    only if the fetch of a matching Query is, and fulfilled with [undefined]
    if and only if all of them are fulfilled. *)
Theorem refetchQueries_promise (now : Number) (filters : QueryFilters)
    (opts : option RefetchOptions) (client : QueryClient)
    (fetched : QueryRef → Settled) :
  let outcomes := fetched <$> QueryCache_findAll now filters (queryCache client) in
  let result := settle fetched (refetchQueries now filters opts client).1.1 in
  let all_fulfilled := ∀ r, r ∈ outcomes → ∃ v, r = Fulfilled v in
  (default false (opts ≫= throwOnError) = false →
     (∀ e, result ≠ Rejected e)
     ∧ (result = Fulfilled VUndefined ↔ (∃ e, Rejected e ∈ outcomes) ∨ all_fulfilled)
     ∧ (result = Pending ↔ Pending ∈ outcomes ∧ ∀ e, Rejected e ∉ outcomes))
  ∧ (default false (opts ≫= throwOnError) = true →
       ((∃ e, result = Rejected e) ↔ ∃ e, Rejected e ∈ outcomes)
       ∧ (result = Fulfilled VUndefined ↔ all_fulfilled)
       ∧ (result = Pending ↔ Pending ∈ outcomes ∧ ∀ e, Rejected e ∉ outcomes)).
Proof.
  intros outcomes result all_fulfilled. subst result.
  destruct (refetchQueries_shape now filters opts client) as (events & -> & _).
  cbn [fst snd].
  pose proof (settle_all_cases outcomes []) as Hall.
  assert (∀ r, r ∈ outcomes → (∃ v, r = Fulfilled v) → r ≠ Pending ∧ ∀ e, r ≠ Rejected e)
    as Hful by (intros r _ [v ->]; by split).
  split; intros ->; cbn [negb settle]; rewrite settle_fetches; fold outcomes;
    destruct (settle_all outcomes []) as [v|e|]; unfold noop, all_fulfilled.
  - destruct Hall as [Hall _]. repeat split; try done; auto.
    intros [Hp _]. by destruct (Hall _ Hp).
  - repeat split; try done; eauto.
    intros [Hp Hr]. by apply Hr in Hall.
  - destruct Hall as [Hp Hr]. repeat split; try done.
    intros [[e He]|Hf]; [by apply Hr in He|]. by destruct (Hf _ Hp).
  - destruct Hall as [Hall _]. repeat split; try done; auto.
    + by intros [e ?].
    + intros [e He]. by destruct (Hall _ He).
    + intros [Hp _]. by destruct (Hall _ Hp).
  - repeat split; try done; eauto.
    + intros Hf. by destruct (Hf _ Hall).
    + intros [Hp Hr]. by apply Hr in Hall.
  - destruct Hall as [Hp Hr]. repeat split; try done.
    + by intros [e ?].
    + intros [e He]. by apply Hr in He.
    + intros Hf. by destruct (Hf _ Hp).
Qed.

End refetching.

Section removing.
Context `{KeyHasher}.

Lemma remove_each_lookup (refs : list QueryRef) (h : string) :
  ∀ cache : QueryCache,
    foldl (λ cache ref, QueryCache_remove ref cache) cache refs !! h
    = if decide (h ∈ refs) then None else cache !! h.
Proof.
  induction refs as [|r refs IH]; intros cache.
  - by rewrite decide_False by apply not_elem_of_nil.
  - simpl. rewrite IH. unfold QueryCache_remove. destruct (decide (h ∈ refs)) as [Hin|Hnin].
    + by rewrite decide_True by (by right).
    + destruct (decide (r = h)) as [->|Hne].
      * rewrite decide_True by (by left). apply lookup_delete_eq.
      * rewrite decide_False by (intros [Heq|?]%elem_of_cons; [by apply Hne|done]).
        by apply lookup_delete_ne.
Qed.

Lemma with_cache_self (client : QueryClient) :
  with_cache (queryCache client) client = client.
Proof. by destruct client. Qed.

Lemma removeQueries_lookup (now : Number) (filters : QueryFilters)
    (client : QueryClient) (h : string) :
  queryCache (removeQueries now filters client) !! h
  = match queryCache client !! h with
    | Some q => if matchQuery now filters q then None else Some q
    | None => None
    end.
Proof.
  unfold removeQueries. simpl. rewrite remove_each_lookup.
  destruct (queryCache client !! h) as [q|] eqn:Hq.
  - destruct (matchQuery now filters q) eqn:Hm.
    + rewrite decide_True; [done|]. apply elem_of_findAll. by exists q.
    + rewrite decide_False; [done|].
      intros (q' & Hq' & Hm')%elem_of_findAll.
      assert (Some q' = Some q) as [= ->] by (by rewrite <- Hq', <- Hq).
      by rewrite Hm in Hm'.
  - case_decide as Hin; [done|done].
Qed.

(** X14: [removeQueries] takes out of the cache exactly the queries that
    match the filters and leaves the others as they were; filters that match
    nothing change nothing, and removing a second time with the same filters
    changes nothing more. *)
Theorem removeQueries_removes_matching (now : Number) (filters : QueryFilters)
    (client : QueryClient) :
  let client' := removeQueries now filters client in
  (∀ h q, queryCache client !! h = Some q →
          queryCache client' !! h = if matchQuery now filters q then None else Some q)
  ∧ (∀ h, queryCache client !! h = None → queryCache client' !! h = None)
  ∧ (∀ h q, queryCache client' !! h = Some q → matchQuery now filters q = false)
  ∧ (QueryCache_findAll now filters (queryCache client) = [] → client' = client)
  ∧ removeQueries now filters client' = client'
  ∧ defaultOptions client' = defaultOptions client.
Proof.
  intros client'. subst client'.
  assert (∀ h q, queryCache (removeQueries now filters client) !! h = Some q →
                 matchQuery now filters q = false) as Hleft.
  { intros h q. rewrite removeQueries_lookup.
    destruct (queryCache client !! h) as [q'|]; simpl; [|done].
    destruct (matchQuery now filters q') eqn:Hm; [done|]. by intros [= <-]. }
  split; [|split; [|split; [done|split; [|split; [|done]]]]].
  - intros h q Hq. by rewrite removeQueries_lookup, Hq.
  - intros h Hq. by rewrite removeQueries_lookup, Hq.
  - intros Hnone. unfold removeQueries. rewrite Hnone. apply with_cache_self.
  - assert (QueryCache_findAll now filters
              (queryCache (removeQueries now filters client)) = []) as Hnone.
    { apply elem_of_nil_inv. intros r.
      intros (q & Hq & Hm)%elem_of_findAll. apply Hleft in Hq.
      by rewrite Hm in Hq. }
    unfold removeQueries at 1. rewrite Hnone. apply with_cache_self.
Qed.

Lemma matchQuery_set_fetching (now : Number) (filters : QueryFilters) (q : Query) :
  matchQuery now (set_fetching filters) q
  = Query_isFetching q && matchQuery now (with_fetching None filters) q.
Proof.
  unfold matchQuery, set_fetching, with_fetching. simpl.
  change (matchKey (mkQueryFilters _ _ _ _ _ _ _ _ _) q) with (matchKey filters q).
  destruct (Query_isFetching q), (matchKey filters q),
    (agrees (active filters) (Query_isActive q)),
    (agrees (inactive filters) (negb (Query_isActive q))),
    (agrees (stale filters) (Query_isStale now q)); done.
Qed.

(** X15: [isFetching] counts the queries that are fetching and match the
    rest of the filters, whatever [fetching] the caller's filters ask for: the
    flag is overwritten with [true]. It is 0 when no Query of the cache is
    fetching and never exceeds the size of the cache. *)
Theorem isFetching_counts_fetching (now : Number) (filters : QueryFilters)
    (client : QueryClient) :
  (∀ flag, QueryClient_isFetching now (with_fetching flag filters) client
           = QueryClient_isFetching now filters client)
  ∧ QueryClient_isFetching now filters client
    = length (filter (λ hq, Query_isFetching hq.2 = true
                            ∧ matchQuery now (with_fetching None filters) hq.2 = true)
                     (map_to_list (queryCache client)))
  ∧ ((∀ h q, queryCache client !! h = Some q → Query_isFetching q = false) →
     QueryClient_isFetching now filters client = 0)
  ∧ (QueryClient_isFetching now filters client ≤ size (queryCache client))%nat.
Proof.
  assert (QueryClient_isFetching now filters client
          = length (filter (λ hq, Query_isFetching hq.2 = true
                                  ∧ matchQuery now (with_fetching None filters) hq.2 = true)
                           (map_to_list (queryCache client)))) as Hcount.
  { unfold QueryClient_isFetching, QueryCache_findAll. rewrite length_fmap.
    f_equal. apply list_filter_iff. intros [h q]. simpl.
    rewrite matchQuery_set_fetching. apply andb_true_iff. }
  split; [done|]. split; [done|]. split.
  - intros Hidle. rewrite Hcount.
    assert (filter (λ hq, Query_isFetching hq.2 = true
                          ∧ matchQuery now (with_fetching None filters) hq.2 = true)
                   (map_to_list (queryCache client)) = []) as ->; [|done].
    apply elem_of_nil_inv. intros [h q].
    intros [[Hf _] Hin%elem_of_map_to_list]%list_elem_of_filter.
    simpl in Hf. by rewrite (Hidle _ _ Hin) in Hf.
  - rewrite Hcount. etrans; [apply length_filter|].
    by rewrite length_map_to_list.
Qed.

End removing.

Section cancelling.
Context `{KeyHasher} `{QueryCanceller}.

Lemma cancelEach_spec (cancelOptions : CancelOptions) (refs : list QueryRef) :
  ∀ cache : QueryCache,
    (∀ r, r ∈ refs → is_Some (cache !! r)) →
    (cancelEach cancelOptions refs cache).2 = (λ r, (r, cancelOptions)) <$> refs
    ∧ length (cancelEach cancelOptions refs cache).1.1 = length refs
    ∧ (∀ h, h ∉ refs → (cancelEach cancelOptions refs cache).1.2 !! h = cache !! h)
    ∧ dom (cancelEach cancelOptions refs cache).1.2 = dom cache.
Proof.
  induction refs as [|r refs IH]; intros cache Hdom; [done|].
  destruct (Hdom r) as [q Hq]; [by left|].
  simpl. rewrite Hq. destruct (Query_cancel cancelOptions q) as [q' p].
  destruct (IH (<[r := q']> cache)) as (Hcalls & Hlen & Hframe & Hd).
  { intros r' Hin. rewrite lookup_insert. case_decide; [by eexists|].
    apply Hdom. by right. }
  destruct (cancelEach cancelOptions refs (<[r := q']> cache)) as [[ps c] calls].
  simpl in *. split; [by rewrite Hcalls|]. split; [by rewrite Hlen|]. split.
  - intros h [Hne Hnin]%not_elem_of_cons. rewrite Hframe by done.
    by rewrite lookup_insert_ne.
  - rewrite Hd, dom_insert_L.
    assert (r ∈ dom cache) by (apply elem_of_dom; eauto). set_solver.
Qed.

Lemma revertDefaulted_default (opts : option CancelOptions) :
  revertDefaulted (default (mkCancelOptions None None) opts)
  = mkCancelOptions (Some (default true (opts ≫= revert))) (opts ≫= silent).
Proof. by destruct opts as [[[r|] s]|]. Qed.

(** X16: [cancelQueries] calls [cancel] once on each Query that matches
    the filters and on no other, every time with the caller's options in which
    [revert] is [true] unless the caller gave it; the promise it returns is
    never rejected, whatever the cancellations do, and is fulfilled with
    [undefined] if at all. Queries that do not match are left as they were. *)
Theorem cancelQueries_revert_default (now : Number) (filters : QueryFilters)
    (opts : option CancelOptions) (client : QueryClient)
    (fetched : QueryRef → Settled) :
  let refs := QueryCache_findAll now filters (queryCache client) in
  let result := cancelQueries now filters opts client in
  result.2 =
    (λ r, (r, mkCancelOptions (Some (default true (opts ≫= revert))) (opts ≫= silent)))
      <$> refs
  ∧ (∀ e, settle fetched result.1.1 ≠ Rejected e)
  ∧ (∀ v, settle fetched result.1.1 = Fulfilled v → v = VUndefined)
  ∧ (∀ h, h ∉ refs → queryCache result.1.2 !! h = queryCache client !! h)
  ∧ dom (queryCache result.1.2) = dom (queryCache client)
  ∧ defaultOptions result.1.2 = defaultOptions client.
Proof.
  intros refs result. subst result. unfold cancelQueries. fold refs.
  rewrite revertDefaulted_default.
  set (co := mkCancelOptions _ _).
  destruct (cancelEach_spec co refs (queryCache client)) as (Hcalls & _ & Hframe & Hd).
  { intros r [q [Hq _]]%elem_of_findAll. by eexists. }
  destruct (cancelEach co refs (queryCache client)) as [[ps c] calls].
  simpl in *. split; [done|]. split; [|split; [|done]].
  - intros e. by destruct (settle_all _ _).
  - intros v. destruct (settle_all _ _); unfold noop; by intros [= <-].
Qed.

End cancelling.

(** ** Defaults per key *)

Lemma list_find_cons {A} (P : A → Prop) `{∀ x, Decision (P x)} (x : A) (l : list A) :
  list_find P (x :: l)
  = if decide (P x) then Some (0, x) else prod_map S id <$> list_find P l.
Proof. reflexivity. Qed.

(** Replacing one element by one that satisfies the test just as well: the
    same place is found, with the new element if it is the one replaced. *)
Lemma list_find_alter_keep {A} (P : A → Prop) `{∀ x, Decision (P x)}
    (f : A → A) (l : list A) :
  (∀ x, P (f x) ↔ P x) →
  ∀ i, list_find P (alter f i l)
       = (λ found, (found.1, if decide (found.1 = i) then f found.2 else found.2))
           <$> list_find P l.
Proof.
  intros Hkeep. induction l as [|x l IH]; intros i; [done|].
  destruct i as [|i].
  - change (alter f 0 (x :: l)) with (f x :: l). rewrite !list_find_cons.
    destruct (decide (P x)) as [Hx|Hx].
    + by rewrite decide_True by (by apply Hkeep).
    + rewrite decide_False by (by rewrite Hkeep).
      destruct (list_find P l) as [[j y]|]; [|done].
      cbn [fmap option_fmap option_map prod_map fst snd id].
      by rewrite decide_False by lia.
  - change (alter f (S i) (x :: l)) with (x :: alter f i l). rewrite !list_find_cons.
    destruct (decide (P x)) as [Hx|Hx]; [done|].
    rewrite IH. destruct (list_find P l) as [[j y]|]; [|done].
    cbn [fmap option_fmap option_map prod_map fst snd id].
    destruct (decide (j = i)) as [->|Hne].
    + by rewrite decide_True.
    + by rewrite decide_False by lia.
Qed.

Section query_defaults.
Context `{DeepEqual}.

Lemma find_after_setQueryDefaults (queryKey key' : QueryKey) (options : Options)
    (l : list QueryDefaults) :
  list_find (λ x, partialDeepEqual (queryDefaults_queryKey x) key' = true)
            (setQueryDefaults queryKey options l)
  = match list_find (λ x, partialDeepEqual (queryDefaults_queryKey x) queryKey = true) l
    with
    | Some (i, _) =>
        (λ found, (found.1,
                   if decide (found.1 = i)
                   then mkQueryDefaults (queryDefaults_queryKey found.2) options
                   else found.2))
          <$> list_find (λ x, partialDeepEqual (queryDefaults_queryKey x) key' = true) l
    | None =>
        match list_find (λ x, partialDeepEqual (queryDefaults_queryKey x) key' = true) l
        with
        | Some found => Some found
        | None => if partialDeepEqual queryKey key'
                  then Some (length l, mkQueryDefaults queryKey options) else None
        end
    end.
Proof.
  unfold setQueryDefaults.
  destruct (list_find (λ x, partialDeepEqual (queryDefaults_queryKey x) queryKey = true) l)
    as [[i x]|] eqn:Hfound.
  - by apply (list_find_alter_keep
                (λ x, partialDeepEqual (queryDefaults_queryKey x) key' = true)
                (λ result, mkQueryDefaults (queryDefaults_queryKey result) options) l).
  - destruct (list_find (λ x, partialDeepEqual (queryDefaults_queryKey x) key' = true) l)
      as [[j y]|] eqn:Hfound'.
    + by apply list_find_app_l.
    + rewrite list_find_app_r by done. rewrite list_find_cons. simpl.
      destruct (partialDeepEqual queryKey key') eqn:Hself.
      * rewrite decide_True by done. done.
      * rewrite decide_False by (by intros ?). done.
Qed.

(** X17: after [setQueryDefaults(key, options)], [getQueryDefaults(key)]
    gives [options] when an entry matched the key (its options are replaced
    in place: the array does not grow and the entry keeps the key it was
    registered with) or when the key matches itself (an entry is appended);
    a key that neither an entry nor itself matches gets an entry that
    [getQueryDefaults] cannot find. *)
Theorem setQueryDefaults_then_get (queryKey : QueryKey) (options : Options)
    (l : list QueryDefaults) :
  let l' := setQueryDefaults queryKey options l in
  (is_Some (getQueryDefaults queryKey l) →
     getQueryDefaults queryKey l' = Some options
     ∧ queryDefaults_queryKey <$> l' = queryDefaults_queryKey <$> l
     ∧ length l' = length l)
  ∧ (getQueryDefaults queryKey l = None →
       l' = l ++ [mkQueryDefaults queryKey options]
       ∧ getQueryDefaults queryKey l'
         = if partialDeepEqual queryKey queryKey then Some options else None).
Proof.
  intros l'. subst l'. unfold getQueryDefaults.
  rewrite find_after_setQueryDefaults.
  destruct (list_find (λ x, partialDeepEqual (queryDefaults_queryKey x) queryKey = true) l)
    as [[i x]|] eqn:Hfound; simpl.
  - split; [|by intros ?]. intros _. rewrite decide_True by done. simpl.
    split; [done|]. unfold setQueryDefaults. rewrite Hfound.
    split; [|apply length_alter].
    apply list_eq. intros j. rewrite !list_lookup_fmap, list_lookup_alter.
    case_decide as Hj; [|done]. subst j. by destruct (l !! i).
  - split; [by intros [? ?]|]. intros _. unfold setQueryDefaults. rewrite Hfound.
    split; [done|]. by destruct (partialDeepEqual queryKey queryKey).
Qed.

(** X18: what [setQueryDefaults(key, options)] does to the defaults of
    another key [key']. If the first entry that matches [key'] is the first
    that matches [key], [key'] now gets [options] too; if it is another entry,
    [key'] gets what it got before; if no entry matches [key'], it gets
    [options] exactly when no entry matched [key] either and [key], now
    registered, matches [key']. *)
Theorem setQueryDefaults_other_key (queryKey key' : QueryKey) (options : Options)
    (l : list QueryDefaults) :
  let found k := list_find (λ x, partialDeepEqual (queryDefaults_queryKey x) k = true) l in
  let l' := setQueryDefaults queryKey options l in
  (∀ i x, found key' = Some (i, x) → found queryKey = Some (i, x) →
          getQueryDefaults key' l' = Some options)
  ∧ (∀ i x, found key' = Some (i, x) → (∀ y, found queryKey ≠ Some (i, y)) →
            getQueryDefaults key' l' = getQueryDefaults key' l)
  ∧ (found key' = None → is_Some (found queryKey) →
     getQueryDefaults key' l' = None)
  ∧ (found key' = None → found queryKey = None →
     getQueryDefaults key' l'
     = if partialDeepEqual queryKey key' then Some options else None).
Proof.
  intros found l'. subst found l'. unfold getQueryDefaults.
  rewrite find_after_setQueryDefaults.
  split; [|split; [|split]].
  - intros i x -> ->. simpl. by rewrite decide_True.
  - intros i x -> Hother.
    destruct (list_find _ l) as [[j y]|]; simpl; [|done].
    rewrite decide_False; [done|]. intros ->. by apply (Hother y).
  - intros -> [[j y] ->]. done.
  - intros -> ->. by destruct (partialDeepEqual queryKey key').
Qed.

Lemma find_after_setMutationDefaults (mutationKey key' : JsVal) (options : Options)
    (l : list MutationDefaults) :
  list_find (λ x, partialDeepEqual (mutationDefaults_mutationKey x) key' = true)
            (setMutationDefaults mutationKey options l)
  = match list_find
            (λ x, partialDeepEqual (mutationDefaults_mutationKey x) mutationKey = true) l
    with
    | Some (i, _) =>
        (λ found, (found.1,
                   if decide (found.1 = i)
                   then mkMutationDefaults (mutationDefaults_mutationKey found.2) options
                   else found.2))
          <$> list_find
                (λ x, partialDeepEqual (mutationDefaults_mutationKey x) key' = true) l
    | None =>
        match list_find
                (λ x, partialDeepEqual (mutationDefaults_mutationKey x) key' = true) l
        with
        | Some found => Some found
        | None => if partialDeepEqual mutationKey key'
                  then Some (length l, mkMutationDefaults mutationKey options) else None
        end
    end.
Proof.
  unfold setMutationDefaults.
  destruct (list_find
              (λ x, partialDeepEqual (mutationDefaults_mutationKey x) mutationKey = true) l)
    as [[i x]|] eqn:Hfound.
  - by apply (list_find_alter_keep
                (λ x, partialDeepEqual (mutationDefaults_mutationKey x) key' = true)
                (λ result, mkMutationDefaults (mutationDefaults_mutationKey result) options)
                l).
  - destruct (list_find
                (λ x, partialDeepEqual (mutationDefaults_mutationKey x) key' = true) l)
      as [[j y]|] eqn:Hfound'.
    + by apply list_find_app_l.
    + rewrite list_find_app_r by done. rewrite list_find_cons. simpl.
      destruct (partialDeepEqual mutationKey key') eqn:Hself.
      * rewrite decide_True by done. done.
      * rewrite decide_False by (by intros ?). done.
Qed.

(** X19: the mutation defaults behave as the query defaults do: after
    [setMutationDefaults(key, options)], [getMutationDefaults(key)] gives
    [options] when an entry matched the key (replaced in place) or the key
    matches itself (appended), and nothing otherwise; the defaults of a key
    that no entry matches and that [key] does not match stay undefined. *)
Theorem setMutationDefaults_then_get (mutationKey key' : JsVal) (options : Options)
    (l : list MutationDefaults) :
  let l' := setMutationDefaults mutationKey options l in
  (is_Some (getMutationDefaults mutationKey l) →
     getMutationDefaults mutationKey l' = Some options ∧ length l' = length l)
  ∧ (getMutationDefaults mutationKey l = None →
       l' = l ++ [mkMutationDefaults mutationKey options]
       ∧ getMutationDefaults mutationKey l'
         = if partialDeepEqual mutationKey mutationKey then Some options else None)
  ∧ (getMutationDefaults key' l = None → partialDeepEqual mutationKey key' = false →
     getMutationDefaults key' l' = None).
Proof.
  intros l'. subst l'. unfold getMutationDefaults.
  rewrite !find_after_setMutationDefaults.
  destruct (list_find
              (λ x, partialDeepEqual (mutationDefaults_mutationKey x) mutationKey = true) l)
    as [[i x]|] eqn:Hfound; simpl.
  - split; [|split; [by intros ?|]].
    + intros _. rewrite decide_True by done. simpl. split; [done|].
      unfold setMutationDefaults. rewrite Hfound. apply length_alter.
    + intros Hnone%fmap_None _. by rewrite Hnone.
  - split; [by intros [? ?]|split].
    + intros _. unfold setMutationDefaults. rewrite Hfound.
      split; [done|]. by destruct (partialDeepEqual mutationKey mutationKey).
    + intros Hnone%fmap_None ->. by rewrite Hnone.
Qed.

End query_defaults.

(** ** The mounted clients, further *)

Lemma unmount_cases (this : ClientRef) (bus : Bus) :
  ((this ∉ mountedClients bus) ∧ unmount this bus = bus)
  ∨ ∃ pre post, mountedClients bus = pre ++ this :: post ∧ (this ∉ pre)
                ∧ mountedClients (unmount this bus) = pre ++ post.
Proof.
  destruct (decide (this ∈ mountedClients bus)) as [Hin|Hnin].
  - right. destruct (indexOf_first this _ Hin) as (pre & post & Hl & Hpre & _).
    exists pre, post. split; [done|]. split; [done|]. by apply unmount_first.
  - left. split; [done|]. by apply unmount_absent.
Qed.

Lemma elem_of_onFocus (bus : Bus) (k : CacheKind) (c : nat) (s : Signal) :
  notify k c s ∈ onFocus true bus ↔
    s = focus
    ∧ ∃ client, client ∈ mountedClients bus
        ∧ (k = mutation_cache ∧ client_mutationCache client = c
           ∨ k = query_cache ∧ client_queryCache client = c).
Proof.
  destruct (notified_once_in_order focus (getMutationCaches bus) (getQueryCaches bus))
    as (_ & Hmem & _); [apply NoDup_uniq..|].
  unfold onFocus. rewrite Hmem.
  destruct (elem_of_caches bus c) as [Hm Hq]. rewrite Hm, Hq. split.
  - intros (-> & [(-> & client & ? & ?)|(-> & client & ? & ?)]);
      (split; [done|]); exists client; auto.
  - intros (-> & client & Hin & [[-> ?]|[-> ?]]); (split; [done|]);
      [left|right]; (split; [done|]); by exists client.
Qed.

Lemma elem_of_onOnline (bus : Bus) (k : CacheKind) (c : nat) (s : Signal) :
  notify k c s ∈ onOnline true bus ↔
    s = online
    ∧ ∃ client, client ∈ mountedClients bus
        ∧ (k = mutation_cache ∧ client_mutationCache client = c
           ∨ k = query_cache ∧ client_queryCache client = c).
Proof.
  destruct (notified_once_in_order online (getMutationCaches bus) (getQueryCaches bus))
    as (_ & Hmem & _); [apply NoDup_uniq..|].
  unfold onOnline. rewrite Hmem.
  destruct (elem_of_caches bus c) as [Hm Hq]. rewrite Hm, Hq. split.
  - intros (-> & [(-> & client & ? & ?)|(-> & client & ? & ?)]);
      (split; [done|]); exists client; auto.
  - intros (-> & client & Hin & [[-> ?]|[-> ?]]); (split; [done|]);
      [left|right]; (split; [done|]); by exists client.
Qed.

(** X20: [mount] followed by [unmount] of the same client leaves every
    client with the registrations it had: the list of mounted clients is the
    same up to order (the same list when the client was not mounted), and the
    focus and online callbacks call the same caches. *)
Theorem mount_then_unmount (this : ClientRef) (bus : Bus) :
  let bus' := unmount this (mount this bus) in
  mountedClients bus' ≡ₚ mountedClients bus
  ∧ (∀ other, registrations other bus' = registrations other bus)
  ∧ (this ∉ mountedClients bus → mountedClients bus' = mountedClients bus)
  ∧ (∀ n, n ∈ onFocus true bus' ↔ n ∈ onFocus true bus)
  ∧ (∀ n, n ∈ onOnline true bus' ↔ n ∈ onOnline true bus).
Proof.
  intros bus'.
  assert (mountedClients bus' ≡ₚ mountedClients bus
          ∧ (this ∉ mountedClients bus → mountedClients bus' = mountedClients bus))
    as [Hperm Hsame].
  { subst bus'. destruct (decide (this ∈ mountedClients bus)) as [Hin|Hnin].
    - destruct (indexOf_first this _ Hin) as (pre & post & Hl & Hpre & _).
      rewrite (unmount_first this (mount this bus) pre (post ++ [this]));
        [|by rewrite mountedClients_mount, Hl, <- app_assoc|done].
      split; [|done]. rewrite Hl.
      by rewrite (Permutation_app_comm post [this]).
    - rewrite (unmount_first this (mount this bus) (mountedClients bus) []);
        [|done|done].
      by rewrite app_nil_r. }
  split; [done|]. split; [|split; [done|]].
  - intros other. unfold registrations. by rewrite Hperm.
  - split; intros [k c s]; rewrite !elem_of_onFocus || rewrite !elem_of_onOnline;
      by setoid_rewrite Hperm.
Qed.

(** X21: [unmount] takes at most one entry out of the list and never
    touches the entries of other clients nor their order; afterwards the
    callbacks call no cache that they did not call before, and they no longer
    call a cache of the client if the client was mounted once and no other
    mounted client has that cache. *)
Theorem unmount_only_this (this : ClientRef) (bus : Bus) :
  let bus' := unmount this bus in
  filter (λ client, client ≠ this) (mountedClients bus')
  = filter (λ client, client ≠ this) (mountedClients bus)
  ∧ length (mountedClients bus')
    = (if decide (this ∈ mountedClients bus)
       then pred (length (mountedClients bus)) else length (mountedClients bus))
  ∧ (∀ n, n ∈ onFocus true bus' → n ∈ onFocus true bus)
  ∧ (∀ n, n ∈ onOnline true bus' → n ∈ onOnline true bus)
  ∧ (registrations this bus = 1 →
     (∀ other, other ∈ mountedClients bus → other ≠ this →
               client_queryCache other ≠ client_queryCache this) →
     ∀ s, (notify query_cache (client_queryCache this) s ∉ onFocus true bus')
          ∧ (notify query_cache (client_queryCache this) s ∉ onOnline true bus')).
Proof.
  intros bus'. subst bus'.
  destruct (unmount_cases this bus) as [[Hnin ->]|(pre & post & Hl & Hpre & Hl')].
  - rewrite decide_False by done. split; [done|]. split; [done|].
    split; [done|]. split; [done|].
    intros Hone. exfalso. unfold registrations in Hone.
    assert (filter (λ client, client = this) (mountedClients bus) = []) as Hnil;
      [|by rewrite Hnil in Hone].
    apply elem_of_nil_inv. intros c [-> Hin]%list_elem_of_filter. done.
  - assert (∀ c, c ∈ mountedClients (unmount this bus) → c ∈ mountedClients bus)
      as Hsub.
    { intros c. rewrite Hl', Hl, !elem_of_app, elem_of_cons. tauto. }
    rewrite decide_True by (rewrite Hl; apply elem_of_app; right; by left).
    split; [|split; [|split; [|split]]].
    + rewrite Hl', Hl, !filter_app, filter_cons. by rewrite decide_False by (by intros ?).
    + rewrite Hl', Hl, !length_app. simpl. lia.
    + intros [k c s] (-> & client & Hin & Hc)%elem_of_onFocus.
      apply elem_of_onFocus. split; [done|]. exists client. auto.
    + intros [k c s] (-> & client & Hin & Hc)%elem_of_onOnline.
      apply elem_of_onOnline. split; [done|]. exists client. auto.
    + intros Hone Hothers s.
      assert (this ∉ mountedClients (unmount this bus)) as Hgone.
      { rewrite Hl'. unfold registrations in Hone.
        rewrite Hl, filter_app, filter_cons, decide_True, length_app in Hone by done.
        simpl in Hone.
        destruct (filter (λ client, client = this) post) as [|c l] eqn:Hf;
          [|simpl in Hone; lia].
        intros [Hin|Hin]%elem_of_app; [done|].
        assert (this ∈ filter (λ client, client = this) post) as Hin'
          by (by apply list_elem_of_filter).
        rewrite Hf in Hin'. by apply elem_of_nil in Hin'. }
      split.
      * intros (_ & client & Hin & [[? _]|[_ Hc]])%elem_of_onFocus; [done|].
        apply (Hothers client); [by apply Hsub| |done]. by intros ->.
      * intros (_ & client & Hin & [[? _]|[_ Hc]])%elem_of_onOnline; [done|].
        apply (Hothers client); [by apply Hsub| |done]. by intros ->.
Qed.

Lemma uniq_snoc_new `{EqDecision A} (x : A) (l : list A) :
  x ∉ l → uniq (l ++ [x]) = uniq l ++ [x].
Proof.
  intros Hnin. unfold uniq. rewrite imap_app, filter_app, fmap_app. simpl.
  rewrite filter_cons, filter_nil. rewrite decide_True.
  - f_equal. f_equal. apply filter_ext_in.
    intros [i y] Hy. apply elem_of_indexed in Hy. simpl.
    rewrite indexOf_app_l; [done|]. by eapply list_elem_of_lookup_2.
  - simpl. rewrite indexOf_middle by done. lia.
Qed.

Lemma uniq_snoc `{EqDecision A} (x : A) (l : list A) :
  uniq (l ++ [x]) = uniq l ++ (if decide (x ∈ uniq l) then [] else [x]).
Proof.
  case_decide as Hin; rewrite elem_of_uniq in Hin.
  - by rewrite uniq_snoc_dup, app_nil_r.
  - by apply uniq_snoc_new.
Qed.

(** X22: [mount] registers the two callbacks and puts the client's caches
    at the end of the order in which the callbacks call the caches, unless a
    mounted client has them already; the caches called before are called as
    before, in the same order. *)
Theorem mount_adds_caches (this : ClientRef) (bus : Bus) :
  getMutationCaches (mount this bus)
  = getMutationCaches bus
    ++ (if decide (client_mutationCache this ∈ getMutationCaches bus)
        then [] else [client_mutationCache this])
  ∧ getQueryCaches (mount this bus)
    = getQueryCaches bus
      ++ (if decide (client_queryCache this ∈ getQueryCaches bus)
          then [] else [client_queryCache this])
  ∧ focusHandler (mount this bus) = Some onFocus_callback
  ∧ onlineHandler (mount this bus) = Some onOnline_callback
  ∧ (∀ n, n ∈ onFocus true (mount this bus) ↔
          n ∈ onFocus true bus
          ∨ n = notify mutation_cache (client_mutationCache this) focus
          ∨ n = notify query_cache (client_queryCache this) focus)
  ∧ (∀ n, n ∈ onOnline true (mount this bus) ↔
          n ∈ onOnline true bus
          ∨ n = notify mutation_cache (client_mutationCache this) online
          ∨ n = notify query_cache (client_queryCache this) online).
Proof.
  split; [|split; [|split; [done|split; [done|split]]]].
  - unfold getMutationCaches. rewrite mountedClients_mount, fmap_app. apply uniq_snoc.
  - unfold getQueryCaches. rewrite mountedClients_mount, fmap_app. apply uniq_snoc.
  - intros [k c s]. rewrite !elem_of_onFocus, mountedClients_mount. split.
    + intros (-> & client & [Hin|Hin%list_elem_of_singleton]%elem_of_app & Hc).
      * left. split; [done|]. by exists client.
      * right. subst client. destruct Hc as [[-> <-]|[-> <-]]; auto.
    + intros [(-> & client & Hin & Hc)|[[= -> -> ->]|[= -> -> ->]]].
      * split; [done|]. exists client. split; [|done]. apply elem_of_app. by left.
      * split; [done|]. exists this. split; [|auto]. apply elem_of_app. right. by left.
      * split; [done|]. exists this. split; [|auto]. apply elem_of_app. right. by left.
  - intros [k c s]. rewrite !elem_of_onOnline, mountedClients_mount. split.
    + intros (-> & client & [Hin|Hin%list_elem_of_singleton]%elem_of_app & Hc).
      * left. split; [done|]. by exists client.
      * right. subst client. destruct Hc as [[-> <-]|[-> <-]]; auto.
    + intros [(-> & client & Hin & Hc)|[[= -> -> ->]|[= -> -> ->]]].
      * split; [done|]. exists client. split; [|done]. apply elem_of_app. by left.
      * split; [done|]. exists this. split; [|auto]. apply elem_of_app. right. by left.
      * split; [done|]. exists this. split; [|auto]. apply elem_of_app. right. by left.
Qed.

Section invalidation_further.
Context `{KeyHasher}.

Lemma invalidateEach_dom (refs : list QueryRef) :
  ∀ cache : QueryCache, dom (invalidateEach refs cache) = dom cache.
Proof.
  induction refs as [|r refs IH]; intros cache; [done|].
  unfold invalidateEach in *. simpl. by rewrite IH, dom_alter_L.
Qed.

(** X23: [invalidateQueries] adds no Query and removes none; a Query that
    matches neither the filters nor, after the invalidation, the refetch
    filters is left as it was. The promise it returns is the one of
    [refetchQueries]: without [throwOnError] it is never rejected. *)
Theorem invalidateQueries_frame (now : Number) (filters : QueryFilters)
    (opts : option RefetchOptions) (client : QueryClient)
    (fetched : QueryRef → Settled) :
  let refs := QueryCache_findAll now filters (queryCache client) in
  let client1 := with_cache (invalidateEach refs (queryCache client)) client in
  let refs' := QueryCache_findAll now (refetchFilters filters) (queryCache client1) in
  let result := invalidateQueries now filters opts client in
  dom (queryCache result.1.2) = dom (queryCache client)
  ∧ (∀ h, h ∉ refs → h ∉ refs' → queryCache result.1.2 !! h = queryCache client !! h)
  ∧ defaultOptions result.1.2 = defaultOptions client
  ∧ result.1.1 = (refetchQueries now (refetchFilters filters) opts client1).1.1
  ∧ (default false (opts ≫= throwOnError) = false →
     ∀ e, settle fetched result.1.1 ≠ Rejected e).
Proof.
  intros refs client1 refs' result. subst result. unfold invalidateQueries.
  fold refs. fold client1.
  destruct (refetchQueries_shape now (refetchFilters filters) opts client1)
    as (events & Heq & _).
  fold refs' in Heq. rewrite Heq. cbn [fst snd].
  destruct (fetchEach_frame refs' client1) as (Hframe & Hdom & Hdef).
  { intros r [q [Hq _]]%elem_of_findAll. by eexists. }
  split; [|split; [|split; [done|split; [done|]]]].
  - rewrite Hdom. subst client1. simpl. apply invalidateEach_dom.
  - intros h Hh Hh'. rewrite Hframe by done. subst client1. simpl.
    by rewrite invalidateEach_lookup, decide_False.
  - intros ->. cbn [negb settle]. intros e.
    by destruct (settle_all _ _).
Qed.

(** X24: hydrating a client with the payload dehydrated from that very
    client (its cache filing every Query under its own hash) changes nothing,
    whatever the predicate the payload was made with. *)
Theorem hydrate_own_payload (client : QueryClient) (dopts : option DehydrateOptions)
    (opts : option HydrateOptions) :
  keyed (queryCache client) →
  hydrate client (payload (dehydrate client dopts)) opts = client.
Proof.
  intros Hkeyed. rewrite hydrate_payload. apply absorbed_fix.
  intros dq Hin. rewrite dehydrate_queries in Hin.
  apply list_elem_of_fmap in Hin as (q & -> & [_ (h & Hq)%elem_of_getAll]%list_elem_of_filter).
  exists q. simpl. split; [by rewrite (Hkeyed _ _ Hq)|]. apply lt_irrefl.
Qed.

End invalidation_further.

(** ** Examples for the properties above *)

Lemma keyed_singleton (h : string) (q : Query) :
  queryHash q = h → keyed ({[h := q]} : QueryCache).
Proof. intros Hh h' q' [<- <-]%lookup_singleton_Some. done. Qed.

Lemma keyed_insert (h : string) (q : Query) (cache : QueryCache) :
  queryHash q = h → keyed cache → keyed (<[h := q]> cache).
Proof.
  intros Hh Hcache h' q' [[<- <-]|[_ Hq']]%lookup_insert_Some; [done|].
  by apply Hcache.
Qed.

Lemma dehydrate_one_entry_per_hash_witness :
  NoDup (dq_queryHash
           <$> queries (dehydrate (sampleClient {["k" := sampleQuery "k" "v" 100 ∅ [];
                                                  "j" := sampleQuery "j" "w" 50 ∅ []]})
                                  None)).
Proof.
  apply dehydrate_one_entry_per_hash.
  apply keyed_insert; [reflexivity|]. apply keyed_singleton. reflexivity.
Defined.

(** In a payload whose other entries share a hash, the entry of key "k" is
    the only one of its hash. *)
Lemma sole_among_repeated (dq : DehydratedQuery) (v1 v2 : string) (t1 t2 : Z) :
  dq_queryHash dq = "k" →
  let other1 := dehydrateQuery (sampleQuery "j" v1 t1 ∅ []) in
  let other2 := dehydrateQuery (sampleQuery "j" v2 t2 ∅ []) in
  ∀ dq', dq' ∈ [dq; other1; other2] → dq_queryHash dq' = dq_queryHash dq → dq' = dq.
Proof.
  intros Hk other1 other2 dq' Hin Heq. rewrite Hk in Heq.
  apply elem_of_cons in Hin as [->|Hin]; [done|].
  apply elem_of_cons in Hin as [->|Hin]; [discriminate Heq|].
  apply elem_of_cons in Hin as [->|Hin]; [discriminate Heq|].
  by apply elem_of_nil in Hin.
Qed.

Lemma hydrate_restores_absent_witness :
  let dq := dehydrateQuery (sampleQuery "k" "v" 100 ∅ []) in
  let other1 := dehydrateQuery (sampleQuery "j" "x" 1 ∅ []) in
  let other2 := dehydrateQuery (sampleQuery "j" "y" 2 ∅ []) in
  ∃ q, queryCache (@hydrate sampleHasher (sampleClient ∅)
                            (UObject (Some [dq; other1; other2]))
                            (Some (mkHydrateOptions (Some {["retry" := VNum (num 10)]}))))
         !! "k" = Some q
       ∧ state q = sampleState "v" 100
       ∧ options q !! "retry" = Some (VNum (num 10)).
Proof.
  intros dq other1 other2.
  destruct (@hydrate_restores_absent sampleHasher (sampleClient ∅) [dq; other1; other2]
              (Some (mkHydrateOptions (Some {["retry" := VNum (num 10)]}))) dq)
    as (q & Hq & _ & _ & Hs & _ & _ & _ & _ & _ & Ho).
  - by left.
  - by apply sole_among_repeated.
  - reflexivity.
  - exists q. split; [exact Hq|]. split; [exact Hs|].
    rewrite (Ho "retry") by done. reflexivity.
Defined.

Lemma hydrate_never_older_witness :
  let q := sampleQuery "k" "newer" 200 ∅ [] in
  let dq := dehydrateQuery (sampleQuery "k" "older" 100 ∅ []) in
  ∃ q', queryCache (@hydrate sampleHasher (sampleClient {["k" := q]})
                             (UObject (Some [dq])) None) !! "k" = Some q'
        ∧ lt (updatedAt (state q')) (updatedAt (state q)) = false.
Proof.
  intros q dq.
  destruct (@hydrate_never_older sampleHasher (sampleClient {["k" := q]})
              (UObject (Some [dq])) None "k" q) as (q' & Hq' & _ & Hlt & _).
  - reflexivity.
  - by exists q'.
Defined.

Lemma dehydrate_hydrate_dehydrate_witness :
  let A := sampleClient {["k" := sampleQuery "k" "v" 100 ∅ []]} in
  queries (dehydrate (@hydrate sampleHasher (sampleClient ∅)
                                (payload (dehydrate A None)) None) None)
  ≡ₚ queries (dehydrate A None).
Proof.
  intros A.
  refine (proj1 (@dehydrate_hydrate_dehydrate sampleHasher A
                   (mkDefaultOptions None None) None _)).
  apply keyed_singleton. reflexivity.
Defined.

Lemma getQueryData_after_hydrate_witness :
  let dq := dehydrateQuery (sampleQuery "k" "v" 100 ∅ []) in
  let other1 := dehydrateQuery (sampleQuery "j" "x" 1 ∅ []) in
  let other2 := dehydrateQuery (sampleQuery "j" "y" 2 ∅ []) in
  @getQueryData sampleHasher (VStr "k")
    (@hydrate sampleHasher (sampleClient ∅) (UObject (Some [dq; other1; other2])) None)
  = VStr "v".
Proof.
  intros dq other1 other2.
  refine (proj2 (@getQueryData_after_hydrate sampleHasher (sampleClient ∅)
                   [dq; other1; other2] None dq _ _ _)).
  - by left.
  - by apply sole_among_repeated.
  - reflexivity.
Defined.

Lemma hydrate_own_payload_witness :
  let client := sampleClient {["k" := sampleQuery "k" "v" 100 ∅ []]} in
  @hydrate sampleHasher client (payload (dehydrate client None)) None = client.
Proof.
  intros client. apply hydrate_own_payload. apply keyed_singleton. reflexivity.
Defined.
